(** * thecodingtrain.com: site hooks and the YouTube description updater

    A shallow embedding of the two source files of the repository:

    - the React data-shaping hooks [useImages] and [useSelectedTags];
    - the command-line script [update-yt.mjs] ([updateYTDesc], [main]).

    JavaScript strings are modelled as [string], arrays as [list] (an index
    that is out of range reads [None], JavaScript's [undefined]), objects used
    as dictionaries as [gmap string _], and console output, prompts and
    remote calls as a trace of events. *)

From Stdlib Require Import Ascii.
From Stdlib Require String.
From stdpp Require Import gmap strings list fin_maps.

(** ** The string and array methods the sources call *)

Module JsString.

(** [s.startsWith(pat)] *)
Fixpoint startsWith (s pat : string) {struct pat} : bool :=
  match pat, s with
  | "", _ => true
  | String _ _, "" => false
  | String p pat', String c s' =>
      if decide (p = c) then startsWith s' pat' else false
  end.

(** The string left after its first [n] characters. *)
Fixpoint skip (n : nat) (s : string) : string :=
  match n, s with
  | O, _ => s
  | S _, "" => ""
  | S n', String _ s' => skip n' s'
  end.

(** [s.endsWith(pat)] *)
Definition endsWith (s pat : string) : bool :=
  if decide (String.length pat ≤ String.length s)
  then bool_decide (skip (String.length s - String.length pat) s = pat)
  else false.

(** [s.includes(pat)] *)
Fixpoint includes (s pat : string) : bool :=
  startsWith s pat ||
  match s with
  | "" => false
  | String _ s' => includes s' pat
  end.

(** [s.replace(pat, rep)] with a string pattern: only the first occurrence
    of [pat] is replaced ([rep] holds no [$] pattern in the sources). *)
Fixpoint replace (s pat rep : string) : string :=
  if startsWith s pat then rep +:+ skip (String.length pat) s
  else match s with
       | "" => ""
       | String c s' => String c (replace s' pat rep)
       end.

(** [s.split(sep)] for a separator of one character, which is what every
    call in the sources passes.  The result is never empty:
    ["".split(sep)] is [[""]]. *)
Fixpoint split (s : string) (sep : ascii) : list string :=
  match s with
  | "" => [""]
  | String c s' =>
      if decide (c = sep) then "" :: split s' sep
      else match split s' sep with
           | [] => [String c ""]
           | hd :: tl => String c hd :: tl
           end
  end.

(** [parts.join(sep)] *)
Fixpoint join (parts : list string) (sep : string) : string :=
  match parts with
  | [] => ""
  | [p] => p
  | p :: rest => p +:+ sep +:+ join rest sep
  end.

(** Truthiness of a string value: only the empty string is falsy. *)
Definition truthy (s : string) : bool :=
  negb (bool_decide (s = "")).

End JsString.

(** ** src/unnamed/part_000: the hooks *)

Module Hooks.
Import JsString.

(** A thrown JavaScript exception, with its message. *)
Inductive exn := TypeError (msg : string).

(** [useMemo(f, deps)] hands back what [f] computes; only the identity of
    the result across renders depends on [deps]. *)
Definition useMemo {A D : Type} (f : unit → A) (deps : D) : A := f ().

Section Images.
(** The type of gatsby image data objects. *)
Context {Data : Type}.

(** What a query gives for [gatsbyImageData]: the image data object,
    or [null]. *)
Inductive imageData := NullData | ImageData (d : Data).

Record imageSharp := { gatsbyImageData : imageData }.

(** An image node: its scalar fields by name, and its [childImageSharp]. *)
Record node := {
  fields : gmap string string;
  childImageSharp : imageSharp
}.

(** The members a plain object inherits from [Object.prototype], as the
    property key they are coerced to: the methods print as their native
    source, the [__proto__] getter gives the prototype object. *)
Definition objectPrototypeKey (property : string) : option string :=
  if decide (property = "__proto__") then Some "[object Object]"
  else if decide (property = "constructor")
  then Some "function Object() { [native code] }"
  else if decide (property ∈ ["toString"; "toLocaleString"; "valueOf";
                              "hasOwnProperty"; "isPrototypeOf";
                              "propertyIsEnumerable"; "__defineGetter__";
                              "__defineSetter__"; "__lookupGetter__";
                              "__lookupSetter__"])
  then Some ("function " +:+ property +:+ "() { [native code] }")
  else None.

(** The property key [nodes[i][property]] is coerced to when it indexes
    [images]: the [childImageSharp] object prints as [[object Object]]; a
    field the node lacks reads the member inherited from [Object.prototype],
    or [undefined] when there is none. *)
Definition propertyKey (n : node) (property : string) : string :=
  if decide (property = "childImageSharp") then "[object Object]"
  else match fields n !! property with
       | Some k => k
       | None => default "undefined" (objectPrototypeKey property)
       end.

(** The prototype of the object [images]: [Object.prototype] as [{}] makes
    it, or what an assignment to [__proto__] has put there. *)
Inductive imagesPrototype :=
| ObjectPrototype
| DataPrototype (d : Data)
| NullPrototype.

(** The object [images]: its own properties and its prototype. *)
Record imagesObject := {
  entries : gmap string imageData;
  prototype : imagesPrototype
}.

(** [images[key] = value].  The key [__proto__] reaches the setter inherited
    from [Object.prototype], which replaces the prototype and adds no
    property; once the prototype is [null] that setter is out of reach and
    [__proto__] is a key like any other.  Every other key adds or overwrites
    an own property (an image data object has no setter and no read-only
    property that would stop it when it is the prototype). *)
Definition assign (images : imagesObject) (key : string) (value : imageData)
  : imagesObject :=
  if decide (key = "__proto__") then
    match prototype images with
    | NullPrototype =>
        {| entries := <[key := value]> (entries images);
           prototype := NullPrototype |}
    | ObjectPrototype | DataPrototype _ =>
        {| entries := entries images;
           prototype := match value with
                        | NullData => NullPrototype
                        | ImageData d => DataPrototype d
                        end |}
    end
  else
    {| entries := <[key := value]> (entries images);
       prototype := prototype images |}.

Definition useImages (nodes : list node) (property : string) : imagesObject :=
  useMemo (λ _,
    let images := {| entries := ∅; prototype := ObjectPrototype |} in
    foldl (λ images n,
             assign images (propertyKey n property)
               (gatsbyImageData (childImageSharp n)))
          images nodes)
    (nodes, property).
End Images.
Arguments imageData : clear implicits.
Arguments imageSharp : clear implicits.
Arguments node : clear implicits.
Arguments imagesPrototype : clear implicits.
Arguments imagesObject : clear implicits.

Definition useSelectedTags (pathname : string)
  : exn + (option string * option string) :=
  let splittedString := split (replace pathname "%20" " ") "/" in
  let filterString :=
    match splittedString !! 2 with
    | Some segment =>
        if truthy segment && includes segment "+" then segment
        else "lang:all+topic:all"
    | None => "lang:all+topic:all"
    end in
  match split filterString "+" !! 0, split filterString "+" !! 1 with
  | Some languageFilter, Some topicFilter =>
      inr (split languageFilter ":" !! 1, split topicFilter ":" !! 1)
  | _, _ => inl (TypeError "Cannot read properties of undefined (reading 'split')")
  end.

End Hooks.

(** ** src/node-scripts/update-yt.mjs: the description updater *)

Module UpdateYT.
Import JsString.

(** An error value, as the text it prints as. *)
Definition error := string.

(** *** Data *)

(** A video of [metadata.json]. *)
Record video := {
  videoId : string;
  title : string;
  slug : string;
  canonicalTrack : string;
  canonicalURL : string
}.

(** A track of [metadata.json]; [main] overwrites [videos]. *)
Record track := {
  track_slug : string;
  track_title : string;
  track_videos : list video
}.

Record metadata := {
  metadata_videos : list video;
  metadata_tracks : list track
}.

(** The [snippet] part of a YouTube video resource. *)
Record snippet := {
  snippet_title : string;
  description : string;
  categoryId : string
}.

Record videoResource := { resource_snippet : snippet }.

(** The [requestBody] of [videos.update]. *)
Record requestBody := {
  body_id : string;
  body_snippet : snippet
}.

(** One entry of an inquirer [list] prompt. *)
Record choice := { name : string; value : string }.

Definition token := string.
Definition credentials := string.

(** *** Effects: a trace of what the script does, and exceptions *)

Inductive event :=
| ConsoleLog (args : list string)
| ConsoleError (msg : string)
| Question (query : string)
| GetToken (code : string)
| StoreToken (path : string) (tok : token)
| Prompt (prompt_name message : string) (choices : list choice)
| VideosList (id : string)
| VideosUpdate (body : requestBody).

(** A computation emits events and then returns or throws. *)
Definition M (A : Type) : Type := list event * (error + A).

Definition ret {A} (a : A) : M A := ([], inr a).
Definition throw {A} (e : error) : M A := ([], inl e).
Definition emit (e : event) : M unit := ([e], inr ()).

Definition bind {A B} (m : M A) (k : A → M B) : M B :=
  match m with
  | (tr, inl e) => (tr, inl e)
  | (tr, inr a) => let '(tr', r) := k a in (tr ++ tr', r)
  end.

(** [try { m } catch (err) { handler err }] *)
Definition try_catch {A} (m : M A) (handler : error → M A) : M A :=
  match m with
  | (tr, inl e) => let '(tr', r) := handler e in (tr ++ tr', r)
  | (tr, inr a) => (tr, inr a)
  end.

Notation "x <- m ;; k" := (bind m (λ x, k))
  (at level 100, m at next level, right associativity).
Notation "'do' m ;; k" := (bind m (λ _, k))
  (at level 100, m at next level, right associativity).

Definition trace {A} (m : M A) : list event := m.1.
Definition outcome {A} (m : M A) : error + A := m.2.

Definition console_log (args : list string) : M unit := emit (ConsoleLog args).
Definition console_error (msg : string) : M unit := emit (ConsoleError msg).

(** *** The remote service *)

(** What the YouTube Data API answers: [videos.list] gives
    [res.data.items] or fails, [videos.update] succeeds or fails. *)
Record youtube := {
  list_response : string → error + list videoResource;
  update_response : requestBody → error + unit
}.

Definition videos_list (service : youtube) (id : string)
  : M (list videoResource) :=
  do emit (VideosList id) ;;
  match list_response service id with
  | inl err => throw err
  | inr items => ret items
  end.

Definition videos_update (service : youtube) (body : requestBody) : M unit :=
  do emit (VideosUpdate body) ;;
  match update_response service body with
  | inl err => throw err
  | inr _ => ret ()
  end.

Definition updateYTDesc (videoId newDescription : string) (service : youtube)
  : M unit :=
  try_catch
    (items <- videos_list service videoId ;;
     video <- match items !! 0 with
             | Some video => ret video
             | None =>
                 throw "TypeError: Cannot read properties of undefined (reading 'snippet')"
             end ;;
     let oldDescription := description (resource_snippet video) in
     if decide (oldDescription = newDescription) then
       console_log ["Description is already up to date."]
     else
       do videos_update service
         {| body_id := videoId;
            body_snippet :=
              {| snippet_title := snippet_title (resource_snippet video);
                 description := newDescription;
                 categoryId := categoryId (resource_snippet video) |} |} ;;
       console_log ["Updated video description."])
    (λ err, console_error ("The API returned an error: " +:+ err)).

(** *** The world [main] runs in *)

(** Reading and parsing a JSON file. *)
Inductive jsonFile (A : Type) :=
| Missing (err : error)
| Malformed (err : error)
| Parsed (a : A).
Arguments Missing {A} err.
Arguments Malformed {A} err.
Arguments Parsed {A} a.

Record world := {
  (** [google-credentials/client_secret.json] *)
  clientSecretFile : jsonFile credentials;
  (** [google-credentials/credentials.json] *)
  tokenFile : jsonFile token;
  (** [oauth2Client.generateAuthUrl(...)] *)
  authUrl : string;
  (** what the user types at the authorization question *)
  enteredCode : string;
  (** [oauth2Client.getToken(code, ...)] *)
  tokenExchange : string → error + token;
  (** the error of [fs.mkdirSync(TOKEN_DIR)], if any, other than [EEXIST] *)
  mkdirError : option error;
  (** the error [fs.writeFile] hands to its callback, if any *)
  storeTokenError : option error;
  (** the files of [_descriptions] by name, [None] when the directory
      does not exist *)
  descriptions : option (gmap string string);
  (** [JSON.parse] on the text of [metadata.json] *)
  parseMetadata : string → error + metadata;
  (** the position of the entry the user picks in a prompt *)
  pick : string → list choice → nat;
  (** [google.youtube({ version: 'v3', auth })] *)
  service : youtube
}.

Definition TOKEN_DIR : string := "google-credentials/".
Definition TOKEN_PATH : string := TOKEN_DIR +:+ "credentials.json".

(** [storeToken(token, callback)]: an error of [mkdirSync] other than
    [EEXIST] is thrown again and nothing is written; an error of [writeFile]
    is thrown from its callback; else the token is in the file, which the
    event [StoreToken] records, and the script says so and goes on. *)
Definition storeToken (w : world) (tok : token) : M unit :=
  match mkdirError w with
  | Some err => throw err
  | None =>
      match storeTokenError w with
      | Some err => throw err
      | None =>
          do emit (StoreToken TOKEN_PATH tok) ;;
          console_log ["Token stored to " +:+ TOKEN_PATH]
      end
  end.

Definition getNewToken (w : world) : M token :=
  do console_log ["Authorize this app by visiting this url: "; authUrl w] ;;
  do emit (Question "Enter the code from that page here: ") ;;
  let code := enteredCode w in
  do emit (GetToken code) ;;
  match tokenExchange w code with
  | inl err =>
      do console_log ["Error while trying to retrieve access token"; err] ;;
      throw "undefined"
  | inr tok => do storeToken w tok ;; ret tok
  end.

Definition authorize (w : world) (creds : credentials) : M token :=
  match tokenFile w with
  | Parsed tok => ret tok
  | Missing _ | Malformed _ => getNewToken w
  end.

(** [fs.readdirSync(dir)] *)
Definition readdirSync (dir : gmap string string) : list string :=
  (map_to_list dir).*1.

(** [fs.readFileSync('_descriptions/' + file, 'utf8')] *)
Definition readFileSync (w : world) (file : string) : M string :=
  match descriptions w ≫= (.!! file) with
  | Some text => ret text
  | None =>
      throw ("Error: ENOENT: no such file or directory, open '_descriptions/"
             +:+ file +:+ "'")
  end.

(** [inquirer.prompt] with one [list] question: the answer is the value of
    the entry picked; no entry picked rejects the prompt. *)
Definition prompt (w : world) (prompt_name message : string)
  (choices : list choice) : M string :=
  do emit (Prompt prompt_name message choices) ;;
  match choices !! pick w prompt_name choices with
  | Some c => ret (value c)
  | None => throw "Error: prompt was closed"
  end.

(** The constants of [main], by their names in the source. *)

Definition videoIds (files : list string) : list string :=
  (λ f, join (drop 1 (split (default "" (split f "." !! 0)) "_")) "_")
    <$> filter (λ f, negb (endsWith f "json")) files.

Definition videos (md : metadata) (videoIds : list string) : list video :=
  filter (λ x, videoId x ∈ videoIds) (metadata_videos md).

Definition challengeVideos (videos : list video) : list video :=
  filter (λ video, startsWith (canonicalURL video) "challenges") videos.

Definition tracks (md : metadata) (videos : list video) : list track :=
  let tracks :=
    filter (λ track, 0 < length (track_videos track))
      ((λ track,
          {| track_slug := track_slug track;
             track_title := track_title track;
             track_videos :=
               filter (λ video, canonicalTrack video = track_slug track) videos |})
         <$> metadata_tracks md) in
  if decide (0 < length (challengeVideos videos)) then
    tracks ++ [ {| track_slug := "challenges";
                   track_title := "Coding Challenges";
                   track_videos := challengeVideos videos |} ]
  else tracks.

Definition undefined_property {A} (prop : string) : M A :=
  throw ("TypeError: Cannot read properties of undefined (reading '"
         +:+ prop +:+ "')").

Definition main (w : world) : M unit :=
  match clientSecretFile w with
  | Missing err => console_log ["Error loading client secret file: " +:+ err]
  | Malformed err => throw err
  | Parsed content =>
      auth <- authorize w content ;;
      let service := service w in
      match descriptions w with
      | None =>
          console_log ["No generated descriptions available. Try generating them first by using the yt-desc script."]
      | Some dir =>
          if decide (length (readdirSync dir) = 0) then
            console_log ["No generated descriptions available. Try generating them first by using the yt-desc script."]
          else
            let videoIds := videoIds (readdirSync dir) in
            text <- readFileSync w "metadata.json" ;;
            metadata <- match parseMetadata w text with
                       | inl err => throw err
                       | inr md => ret md
                       end ;;
            let videos := videos metadata videoIds in
            let tracks := tracks metadata videos in
            trackSlug <- prompt w "trackSlug" "Select a track to update:"
              ((λ track, {| name := track_title track; value := track_slug track |})
                 <$> tracks) ;;
            track <- match list_find (λ x, track_slug x = trackSlug) tracks with
                    | Some (_, track) => ret track
                    | None => undefined_property "videos"
                    end ;;
            videoId' <- prompt w "videoId" "Select a video to update:"
              ((λ video, {| name := title video +:+ " (" +:+ videoId video +:+ ")";
                            value := videoId video |})
                 <$> track_videos track) ;;
            video <- match list_find (λ video, videoId video = videoId')
                            (track_videos track) with
                    | Some (_, video) => ret video
                    | None => undefined_property "title"
                    end ;;
            do console_log ["Updating description for video..."; title video;
                         "(" +:+ videoId video +:+ ")"] ;;
            newDescription <-
              readFileSync w (slug video +:+ "_" +:+ videoId video +:+ ".txt") ;;
            updateYTDesc (videoId video) newDescription service
      end
  end.

End UpdateYT.

(** ** Vocabulary of the properties, and sample inputs *)

Import JsString Hooks UpdateYT.

(** The events the properties of [main] speak of. *)
Definition selection_prompt (e : event) : Prop :=
  match e with Prompt _ _ _ => True | _ => False end.

Definition remote_call (e : event) : Prop :=
  match e with VideosList _ | VideosUpdate _ => True | _ => False end.

(** The video id [main] reads off a file name. *)
Definition file_videoId (f : string) : string :=
  join (drop 1 (split (default "" (split f "." !! 0)) "_")) "_".

(** A service holding one video: the same description short-circuits, a new
    one is sent with the fetched title and category. *)
Definition one_video_service : youtube :=
  {| list_response := λ _,
       inr [ {| resource_snippet :=
                  {| snippet_title := "Random Walker";
                     description := "old text";
                     categoryId := "28" |} |} ];
     update_response := λ _, inr () |}.

(** A challenge video that also names the metadata track [p5]. *)
Definition walker : video :=
  {| videoId := "abc"; title := "Random Walker"; slug := "walker";
     canonicalTrack := "p5"; canonicalURL := "challenges/1-walker" |}.

Definition sample_metadata : metadata :=
  {| metadata_videos := [walker];
     metadata_tracks :=
       [ {| track_slug := "p5"; track_title := "p5.js"; track_videos := [] |};
         {| track_slug := "ml"; track_title := "Machine Learning"; track_videos := [] |} ] |}.

(** A run with a stored token. *)
Definition mk_world (dir : option (gmap string string)) (md : metadata) : world :=
  {| clientSecretFile := Parsed "client secret";
     tokenFile := Parsed "token";
     authUrl := "https://accounts.google.com/o/oauth2/v2/auth";
     enteredCode := "code";
     tokenExchange := λ _, inr "token";
     mkdirError := None;
     storeTokenError := None;
     descriptions := dir;
     parseMetadata := λ _, inr md;
     pick := λ _ _, 0;
     service := one_video_service |}.

(** [_descriptions] holds [foo_abc.txt], and the metadata gives the video
    [abc] the slug [bar]. *)
Definition mismatch_metadata : metadata :=
  {| metadata_videos :=
       [ {| videoId := "abc"; title := "T"; slug := "bar";
            canonicalTrack := "t"; canonicalURL := "tracks/t/bar" |} ];
     metadata_tracks :=
       [ {| track_slug := "t"; track_title := "Track"; track_videos := [] |} ] |}.

Definition mismatch_world : world :=
  mk_world (Some {[ "metadata.json" := "{}"; "foo_abc.txt" := "text" ]})
    mismatch_metadata.

Definition empty_world : world := mk_world (Some ∅) mismatch_metadata.

(** A metadata track of its own bears the slug [challenges]: [walker] is a
    challenge of the track [p5], [maze] a video of the track [challenges].
    The user picks entry [k] of the track prompt. *)
Definition maze : video :=
  {| videoId := "xyz"; title := "Maze Generator"; slug := "maze";
     canonicalTrack := "challenges"; canonicalURL := "tracks/maze" |}.

Definition clash_metadata : metadata :=
  {| metadata_videos := [walker; maze];
     metadata_tracks :=
       [ {| track_slug := "p5"; track_title := "p5.js"; track_videos := [] |};
         {| track_slug := "challenges"; track_title := "Old Challenges";
            track_videos := [] |} ] |}.

Definition clash_world (k : nat) : world :=
  {| clientSecretFile := Parsed "client secret";
     tokenFile := Parsed "token";
     authUrl := "https://accounts.google.com/o/oauth2/v2/auth";
     enteredCode := "code";
     tokenExchange := λ _, inr "token";
     mkdirError := None;
     storeTokenError := None;
     descriptions :=
       Some {[ "metadata.json" := "{}"; "walker_abc.txt" := "new text";
               "maze_xyz.txt" := "maze text" ]};
     parseMetadata := λ _, inr clash_metadata;
     pick := λ prompt_name _, if decide (prompt_name = "trackSlug") then k else 0;
     service := one_video_service |}.

(** [_descriptions] holds [metadata.json] and nothing else. *)
Definition metadata_only_world : world :=
  mk_world (Some {[ "metadata.json" := "{}" ]}) mismatch_metadata.

(** Image nodes with a [name] field, and without any field. *)
Definition named_node (k : string) (d : nat) : node nat :=
  {| fields := {[ "name" := k ]};
     childImageSharp := {| gatsbyImageData := ImageData d |} |}.

Definition bare_node (d : nat) : node nat :=
  {| fields := ∅; childImageSharp := {| gatsbyImageData := ImageData d |} |}.

(** An image node named [k] whose image data is [null]. *)
Definition null_node (k : string) : node nat :=
  {| fields := {[ "name" := k ]};
     childImageSharp := {| gatsbyImageData := NullData |} |}.

(** The events that only write to the console. *)
Definition console_event (e : event) : Prop :=
  match e with ConsoleLog _ | ConsoleError _ => True | _ => False end.

(** A run without a stored token, with the given answer of the code
    exchange. *)
Definition no_token_world (exchange : error + token) : world :=
  {| clientSecretFile := Parsed "client secret";
     tokenFile := Missing "ENOENT";
     authUrl := "https://accounts.google.com/o/oauth2/v2/auth";
     enteredCode := "4/0Ab";
     tokenExchange := λ _, exchange;
     mkdirError := None;
     storeTokenError := None;
     descriptions := None;
     parseMetadata := λ _, inr sample_metadata;
     pick := λ _ _, 0;
     service := one_video_service |}.

(** [_descriptions] holds the description of [walker] and the metadata. *)
Definition working_world : world :=
  mk_world (Some {[ "metadata.json" := "{}"; "walker_abc.txt" := "new text" ]})
    sample_metadata.

(** [_descriptions] holds a description but no [metadata.json]. *)
Definition no_metadata_world : world :=
  mk_world (Some {[ "walker_abc.txt" := "new text" ]}) sample_metadata.

(** The update [main] sends for [walker] in [working_world]. *)
Definition walker_update : requestBody :=
  {| body_id := "abc";
     body_snippet :=
       {| snippet_title := "Random Walker";
          description := "new text";
          categoryId := "28" |} |}.

(** * Properties *)

(** ** Facts about the string methods *)

Section StringFacts.
Implicit Types (s pre post : string) (c sep : ascii).

Lemma app_String c s post : String c s +:+ post = String c (s +:+ post).
Proof. reflexivity. Qed.

Lemma app_empty post : "" +:+ post = post.
Proof. reflexivity. Qed.

Lemma app_assoc_string pre s post :
  (pre +:+ s) +:+ post = pre +:+ (s +:+ post).
Proof.
  induction pre as [|c pre IH]; [done|]. rewrite !app_String. by f_equal.
Qed.

Lemma startsWith_char s c :
  startsWith s (String c "") =
  match s with "" => false | String d _ => bool_decide (c = d) end.
Proof.
  destruct s as [|d s]; simpl; [done|].
  destruct (decide (c = d)); [rewrite bool_decide_eq_true_2|rewrite bool_decide_eq_false_2];
    by destruct s.
Qed.

Lemma includes_char_cons d s c :
  includes (String d s) (String c "") = bool_decide (c = d) || includes s (String c "").
Proof.
  change (includes (String d s) (String c ""))
    with (startsWith (String d s) (String c "") || includes s (String c "")).
  by rewrite startsWith_char.
Qed.

Lemma includes_char_app pre post c :
  includes (pre +:+ post) (String c "") =
  includes pre (String c "") || includes post (String c "").
Proof.
  induction pre as [|d pre IH].
  - change ("" +:+ post) with post. by destruct post.
  - rewrite app_String, !includes_char_cons, IH. by rewrite orb_assoc.
Qed.

Lemma split_cons s sep : ∃ hd tl, split s sep = hd :: tl.
Proof.
  induction s as [|c s (hd & tl & IH)]; simpl; [by eauto|].
  destruct (decide (c = sep)); [by eauto|]. rewrite IH. by eauto.
Qed.

(** A string without the separator is one part. *)
Lemma split_without s sep :
  includes s (String sep "") = false → split s sep = [s].
Proof.
  induction s as [|c s IH]; [done|].
  rewrite includes_char_cons. intros [Hc Hs]%orb_false_elim.
  apply bool_decide_eq_false in Hc. simpl.
  destruct (decide (c = sep)); [congruence|]. by rewrite IH.
Qed.

(** The first part ends at the first separator. *)
Lemma split_app pre post sep :
  includes pre (String sep "") = false →
  split (pre +:+ String sep post) sep = pre :: split post sep.
Proof.
  induction pre as [|c pre IH].
  - intros _. change ("" +:+ String sep post) with (String sep post).
    simpl. by rewrite decide_True.
  - rewrite includes_char_cons. intros [Hc Hs]%orb_false_elim.
    apply bool_decide_eq_false in Hc. rewrite app_String. simpl.
    destruct (decide (c = sep)); [congruence|]. by rewrite IH.
Qed.

(** A string with the separator has at least two parts. *)
Lemma split_with s sep :
  includes s (String sep "") = true → ∃ a b rest, split s sep = a :: b :: rest.
Proof.
  induction s as [|c s IH]; [done|].
  rewrite includes_char_cons. simpl. destruct (decide (c = sep)) as [->|Hne].
  - intros _. destruct (split_cons s sep) as (hd & tl & ->). by eauto.
  - rewrite bool_decide_eq_false_2 by congruence. simpl.
    intros (a & b & rest & ->)%IH. by eauto.
Qed.

Lemma replace_without s pat rep :
  includes s pat = false → replace s pat rep = s.
Proof.
  induction s as [|c s IH]; simpl.
  - by intros [-> _]%orb_false_elim.
  - intros [-> Hs]%orb_false_elim. by rewrite IH.
Qed.

(** An occurrence of [%20] cannot start inside a string that holds none
    and run over into a [%20] put after it. *)
Lemma startsWith_percent20_app pre post :
  includes pre "%20" = false →
  pre ≠ "" →
  startsWith (pre +:+ "%20" +:+ post) "%20" = false.
Proof.
  intros Hpre Hne.
  assert (startsWith pre "%20" = false) as Hstart.
  { destruct pre; simpl in Hpre; [done|]. by apply orb_false_elim in Hpre as [? _]. }
  clear Hpre.
  destruct pre as [|c1 [|c2 [|c3 pre]]]; [done|..];
    rewrite ?app_String, ?app_empty; simpl in *;
    repeat case_decide; done.
Qed.

(** Only the first [%20] is decoded: what follows it is kept as it is. *)
Lemma replace_first_percent20 pre post :
  includes pre "%20" = false →
  replace (pre +:+ "%20" +:+ post) "%20" " " = pre +:+ " " +:+ post.
Proof.
  induction pre as [|c pre IH]; [done|].
  intros Hpre. rewrite app_String.
  change (replace (String c (pre +:+ "%20" +:+ post)) "%20" " ")
    with (if startsWith (String c (pre +:+ "%20" +:+ post)) "%20"
          then " " +:+ skip 3 (String c (pre +:+ "%20" +:+ post))
          else String c (replace (pre +:+ "%20" +:+ post) "%20" " ")).
  rewrite <- app_String, startsWith_percent20_app by done.
  rewrite IH; [done|].
  change (includes (String c pre) "%20")
    with (startsWith (String c pre) "%20" || includes pre "%20") in Hpre.
  by apply orb_false_elim in Hpre as [_ ?].
Qed.

End StringFacts.

(** ** [useSelectedTags] *)

Section SelectedTags.

(** The path segment [useSelectedTags] reads: index 2 of the pathname split
    on [/], after the replacement of [%20]. *)
Local Abbreviation segment2 pathname :=
  (split (replace pathname "%20" " ") "/" !! 2).

Lemma includes_plus_truthy seg : includes seg "+" = true → truthy seg = true.
Proof. by destruct seg. Qed.

(** What [useSelectedTags] returns on a segment holding [+]. *)
Lemma useSelectedTags_segment pathname seg a b rest :
  segment2 pathname = Some seg →
  includes seg "+" = true →
  split seg "+" = a :: b :: rest →
  useSelectedTags pathname = inr (split a ":" !! 1, split b ":" !! 1).
Proof.
  intros Hseg Hplus Hsplit. unfold useSelectedTags.
  rewrite Hseg, Hplus, includes_plus_truthy by done. simpl.
  by rewrite Hsplit.
Qed.

Lemma split_token l t :
  includes l "+" = false → includes t "+" = false →
  split ("lang:" +:+ l +:+ "+topic:" +:+ t) "+" = ["lang:" +:+ l; "topic:" +:+ t].
Proof.
  intros Hl Ht.
  change ("lang:" +:+ l +:+ "+topic:" +:+ t)
    with ("lang:" +:+ (l +:+ String "+" ("topic:" +:+ t))).
  assert (includes ("lang:" +:+ l) "+" = false) as Hlang
    by (by rewrite includes_char_app, Hl).
  assert (includes ("topic:" +:+ t) "+" = false) as Htopic
    by (by rewrite includes_char_app, Ht).
  assert ("lang:" +:+ (l +:+ String "+" ("topic:" +:+ t))
          = ("lang:" +:+ l) +:+ String "+" ("topic:" +:+ t)) as ->.
  { symmetry. apply (app_assoc_string "lang:"). }
  by rewrite split_app, split_without.
Qed.

Lemma split_prefixed (prefix : string) v :
  includes prefix ":" = false → includes v ":" = false →
  split (prefix +:+ String ":" v) ":" !! 1 = Some v.
Proof. intros Hp Hv. by rewrite split_app, split_without. Qed.

(** The token [lang:l+topic:t] at index 2 yields the pair [(l, t)]. *)
Lemma useSelectedTags_token pathname l t :
  segment2 pathname = Some ("lang:" +:+ l +:+ "+topic:" +:+ t) →
  includes l "+" = false → includes l ":" = false →
  includes t "+" = false → includes t ":" = false →
  useSelectedTags pathname = inr (Some l, Some t).
Proof.
  intros Hseg Hl1 Hl2 Ht1 Ht2.
  rewrite (useSelectedTags_segment _ _ ("lang:" +:+ l) ("topic:" +:+ t) [] Hseg);
    [| |by apply split_token].
  - change ("lang:" +:+ l) with ("lang" +:+ String ":" l).
    change ("topic:" +:+ t) with ("topic" +:+ String ":" t).
    by rewrite !split_prefixed.
  - change ("lang:" +:+ l +:+ "+topic:" +:+ t)
      with ("lang:" +:+ (l +:+ String "+" ("topic:" +:+ t))).
    rewrite !includes_char_app, (includes_char_cons "+" ("topic:" +:+ t)).
    rewrite bool_decide_eq_true_2 by done. by rewrite !orb_true_r.
Qed.

Lemma useSelectedTags_returns pathname :
  ∃ languageValue topicValue,
    useSelectedTags pathname = inr (languageValue, topicValue).
Proof.
  destruct (segment2 pathname) as [seg|] eqn:Hseg.
  - destruct (includes seg "+") eqn:Hplus.
    + destruct (split_with seg "+" Hplus) as (a & b & rest & Hsplit).
      rewrite (useSelectedTags_segment _ _ _ _ _ Hseg Hplus Hsplit). by eauto.
    + unfold useSelectedTags. rewrite Hseg, Hplus, andb_false_r. by eauto.
  - unfold useSelectedTags. rewrite Hseg. by eauto.
Qed.

(** C1, as the spec states it, fails: in [/x/y/lang:en+topic:math] the segment
    at index 2 is [y], so the default pair comes back. *)
Lemma useSelectedTags_spec_example_default :
  useSelectedTags "/x/y/lang:en+topic:math" = inr (Some "all", Some "all") ∧
  useSelectedTags "/x/y/lang:en+topic:math" ≠ inr (Some "en", Some "math").
Proof. split; [vm_compute; reflexivity | vm_compute; discriminate]. Qed.

(** C1 (amended): [useSelectedTags] reads the token
    [lang:<value>+topic:<value>] from the path segment at index 2 after
    splitting the pathname on [/] (the empty segment before the leading [/]
    is index 0) and returns the pair of values, for values free of [+]
    and [:]; when that segment is absent or holds no [+] the default pair
    [("all", "all")] comes back. *)
Theorem useSelectedTags_extracts_index2 pathname :
  (∀ languageValue topicValue,
     split (replace pathname "%20" " ") "/" !! 2
       = Some ("lang:" +:+ languageValue +:+ "+topic:" +:+ topicValue) →
     includes languageValue "+" = false → includes languageValue ":" = false →
     includes topicValue "+" = false → includes topicValue ":" = false →
     useSelectedTags pathname = inr (Some languageValue, Some topicValue)) ∧
  (split (replace pathname "%20" " ") "/" !! 2 = None ∨
   (∃ seg, split (replace pathname "%20" " ") "/" !! 2 = Some seg ∧
           includes seg "+" = false) →
   useSelectedTags pathname = inr (Some "all", Some "all")).
Proof.
  split.
  - intros l t. apply useSelectedTags_token.
  - intros [Hnone|(seg & Hseg & Hplus)]; unfold useSelectedTags.
    + by rewrite Hnone.
    + by rewrite Hseg, Hplus, andb_false_r.
Qed.

Lemma useSelectedTags_extracts_index2_witness :
  useSelectedTags "/x/lang:en+topic:math" = inr (Some "en", Some "math") ∧
  useSelectedTags "/x/y" = inr (Some "all", Some "all").
Proof.
  split.
  - apply (useSelectedTags_extracts_index2 "/x/lang:en+topic:math");
      vm_compute; reflexivity.
  - apply (useSelectedTags_extracts_index2 "/x/y").
    right. exists "y". split; vm_compute; reflexivity.
Defined.

(** C4, as stated, fails: no pathname makes [useSelectedTags] throw. *)
Lemma useSelectedTags_never_throws :
  ¬ ∃ pathname e, useSelectedTags pathname = inl e.
Proof.
  intros (pathname & e & He).
  destruct (useSelectedTags_returns pathname) as (l & t & Hr). congruence.
Qed.

(** C4 (amended): on a path whose filter segment holds [+],
    [useSelectedTags] does not fail; it returns the pair read from the first
    two [+]-separated parts, with [undefined] for a part that holds
    no [:]. *)
Theorem useSelectedTags_malformed_segment pathname seg :
  split (replace pathname "%20" " ") "/" !! 2 = Some seg →
  includes seg "+" = true →
  ∃ a b rest,
    split seg "+" = a :: b :: rest ∧
    useSelectedTags pathname = inr (split a ":" !! 1, split b ":" !! 1) ∧
    (includes a ":" = false → split a ":" !! 1 = None) ∧
    (includes b ":" = false → split b ":" !! 1 = None).
Proof.
  intros Hseg Hplus.
  destruct (split_with seg "+" Hplus) as (a & b & rest & Hsplit).
  exists a, b, rest. split_and!; [done| |..].
  - by apply (useSelectedTags_segment _ seg _ _ rest).
  - intros Ha. by rewrite split_without.
  - intros Hb. by rewrite split_without.
Qed.

Lemma useSelectedTags_malformed_segment_witness :
  useSelectedTags "/x/a+b" = inr (None, None).
Proof.
  destruct (useSelectedTags_malformed_segment "/x/a+b" "a+b")
    as (a & b & rest & Hsplit & Hres & Ha & Hb);
    [vm_compute; reflexivity | vm_compute; reflexivity |].
  vm_compute in Hsplit. injection Hsplit as <- <- <-.
  rewrite Hres, Ha, Hb by (vm_compute; reflexivity). reflexivity.
Defined.

(** C9: only the first [%20] of the pathname is replaced by a space, so the
    values are read from the pathname with what follows the first [%20]
    kept as it is, later [%20] included. *)
Theorem useSelectedTags_decodes_first_space pre post :
  includes pre "%20" = false →
  replace (pre +:+ "%20" +:+ post) "%20" " " = pre +:+ " " +:+ post ∧
  ∀ languageValue topicValue,
    split (pre +:+ " " +:+ post) "/" !! 2
      = Some ("lang:" +:+ languageValue +:+ "+topic:" +:+ topicValue) →
    includes languageValue "+" = false → includes languageValue ":" = false →
    includes topicValue "+" = false → includes topicValue ":" = false →
    useSelectedTags (pre +:+ "%20" +:+ post)
      = inr (Some languageValue, Some topicValue).
Proof.
  intros Hpre.
  pose proof (replace_first_percent20 pre post Hpre) as Hrep.
  split; [done|]. intros l t Hseg Hl1 Hl2 Ht1 Ht2.
  apply useSelectedTags_token; [|done..]. by rewrite Hrep.
Qed.

Lemma useSelectedTags_decodes_first_space_witness :
  replace "/x/lang:a%20b%20c+topic:d%20e" "%20" " "
    = "/x/lang:a b%20c+topic:d%20e" ∧
  useSelectedTags "/x/lang:a%20b%20c+topic:d%20e"
    = inr (Some "a b%20c", Some "d%20e").
Proof.
  destruct (useSelectedTags_decodes_first_space "/x/lang:a" "b%20c+topic:d%20e")
    as [Hrep Htags]; [vm_compute; reflexivity|].
  split; [exact Hrep|].
  apply (Htags "a b%20c" "d%20e"); vm_compute; reflexivity.
Defined.

End SelectedTags.

(** ** [useImages] *)

Section ImagesFacts.
Context {Data : Type}.
Implicit Types (nodes : list (node Data)) (n : node Data)
  (property k : string) (images : imagesObject Data).

Local Abbreviation payload n := (gatsbyImageData (childImageSharp n)).
Local Abbreviation keys nodes property :=
  ((λ n, propertyKey n property) <$> nodes).

Lemma useImages_nil property :
  useImages (@nil (node Data)) property
  = {| entries := ∅; prototype := ObjectPrototype |}.
Proof. reflexivity. Qed.

(** One more turn of the loop is one more assignment. *)
Lemma useImages_snoc nodes n property :
  useImages (nodes ++ [n]) property
  = assign (useImages nodes property) (propertyKey n property) (payload n).
Proof. unfold useImages, useMemo. by rewrite foldl_app. Qed.


Lemma assign_entries images key value :
  key ≠ "__proto__" →
  entries (assign images key value) = <[key := value]> (entries images).
Proof. intros Hne. unfold assign. by rewrite decide_False. Qed.

Lemma assign_prototype images key value :
  key ≠ "__proto__" →
  prototype (assign images key value) = prototype images.
Proof. intros Hne. unfold assign. by rewrite decide_False. Qed.

(** An assignment leaves the entries of the other keys as they are. *)
Lemma assign_lookup_ne images key value k :
  k ≠ key →
  entries (assign images key value) !! k = entries images !! k.
Proof.
  intros Hne. unfold assign.
  destruct (decide (key = "__proto__")); [destruct (prototype images)|];
    simpl; by rewrite ?lookup_insert_ne.
Qed.

(** A key other than [__proto__] has an entry exactly when a node
    carries it. *)
Lemma useImages_is_Some nodes property k :
  k ≠ "__proto__" →
  is_Some (entries (useImages nodes property) !! k) ↔ k ∈ keys nodes property.
Proof.
  intros Hk. induction nodes as [|n nodes IH] using rev_ind.
  - rewrite useImages_nil. simpl. rewrite lookup_empty. split.
    + by intros [? ?].
    + by intros ?%elem_of_nil.
  - rewrite useImages_snoc, fmap_app, elem_of_app. simpl.
    rewrite list_elem_of_singleton.
    destruct (decide (k = propertyKey n property)) as [->|Hne].
    + rewrite assign_entries, lookup_insert_eq by done. split; [by right|by eauto].
    + rewrite assign_lookup_ne, IH by done. tauto.
Qed.


(** Without a node keyed [__proto__] the prototype stays [Object.prototype]
    and no entry is keyed [__proto__]. *)
Lemma useImages_plain nodes property :
  "__proto__" ∉ keys nodes property →
  prototype (useImages nodes property) = ObjectPrototype ∧
  entries (useImages nodes property) !! "__proto__" = None.
Proof.
  induction nodes as [|n nodes IH] using rev_ind; [done|].
  rewrite fmap_app, not_elem_of_app. simpl. rewrite list_elem_of_singleton.
  intros [Hnodes Hn]. destruct (IH Hnodes) as [Hproto Hentry].
  rewrite useImages_snoc.
  rewrite assign_prototype, assign_lookup_ne by done. done.
Qed.


Lemma useImages_size nodes property :
  NoDup (keys nodes property) →
  "__proto__" ∉ keys nodes property →
  size (entries (useImages nodes property)) = length nodes.
Proof.
  induction nodes as [|n nodes IH] using rev_ind; [done|].
  rewrite fmap_app, not_elem_of_app. simpl. rewrite list_elem_of_singleton.
  intros (Hnodes & Hfresh & _)%NoDup_app [Hplain Hn].
  rewrite useImages_snoc, length_app, assign_entries by done.
  rewrite map_size_insert_None.
  - rewrite IH by done. simpl. lia.
  - destruct (entries (useImages nodes property) !! propertyKey n property)
      eqn:Hk; [|done].
    assert (propertyKey n property ∈ keys nodes property) as Hin
      by (apply useImages_is_Some; [done|by eauto]).
    destruct (Hfresh _ Hin). by left.
Qed.


End ImagesFacts.



(** ** The updater *)

(** *** Traces of computations *)

Section Traces.
Context {A B : Type}.
Implicit Types (m : M A) (k : A → M B) (e : event).

Lemma trace_bind m k :
  trace (bind m k)
  = trace m ++ match outcome m with inr a => trace (k a) | inl _ => [] end.
Proof.
  destruct m as [tr [err|a]]; simpl; [by rewrite app_nil_r|].
  by destruct (k a).
Qed.

Lemma outcome_bind m k :
  outcome (bind m k)
  = match outcome m with inr a => outcome (k a) | inl err => inl err end.
Proof. destruct m as [tr [err|a]]; simpl; [done|]. by destruct (k a). Qed.

Lemma elem_of_trace_bind e m k :
  e ∈ trace (bind m k) ↔
  e ∈ trace m ∨ ∃ a, outcome m = inr a ∧ e ∈ trace (k a).
Proof.
  rewrite trace_bind, elem_of_app. split; (intros [?|H]; [by left|right]).
  - destruct (outcome m) as [err|a]; [by apply elem_of_nil in H|by eauto].
  - destruct H as (a & -> & ?). done.
Qed.
End Traces.

Lemma trace_try_catch {A} (m : M A) (handler : error → M A) :
  trace (try_catch m handler)
  = trace m ++ match outcome m with inl err => trace (handler err) | inr _ => [] end.
Proof.
  destruct m as [tr [err|a]]; simpl; [|by rewrite app_nil_r].
  by destruct (handler err).
Qed.

(** *** [updateYTDesc] *)

Section UpdateYTDesc.
Implicit Types (videoId newDescription : string) (service : youtube)
  (video : videoResource) (body : requestBody).

(** The request [updateYTDesc] sends for a fetched [video]. *)
Local Abbreviation request videoId newDescription video :=
  {| body_id := videoId;
     body_snippet :=
       {| snippet_title := snippet_title (resource_snippet video);
          description := newDescription;
          categoryId := categoryId (resource_snippet video) |} |}.

(** The runs of [updateYTDesc], by what the service answers. *)
Lemma updateYTDesc_list_fails videoId newDescription service err :
  list_response service videoId = inl err →
  updateYTDesc videoId newDescription service
  = ([VideosList videoId; ConsoleError ("The API returned an error: " +:+ err)],
     inr ()).
Proof. intros H. unfold updateYTDesc, videos_list. simpl. by rewrite H. Qed.

Lemma updateYTDesc_no_item videoId newDescription service :
  list_response service videoId = inr [] →
  trace (updateYTDesc videoId newDescription service)
  = [VideosList videoId;
     ConsoleError ("The API returned an error: " +:+
       "TypeError: Cannot read properties of undefined (reading 'snippet')")].
Proof. intros H. unfold updateYTDesc, videos_list. simpl. by rewrite H. Qed.

Lemma updateYTDesc_same videoId newDescription service video rest :
  list_response service videoId = inr (video :: rest) →
  description (resource_snippet video) = newDescription →
  updateYTDesc videoId newDescription service
  = ([VideosList videoId; ConsoleLog ["Description is already up to date."]],
     inr ()).
Proof.
  intros H Heq. unfold updateYTDesc, videos_list. simpl. rewrite H. simpl.
  by rewrite decide_True.
Qed.

Lemma updateYTDesc_differs videoId newDescription service video rest :
  list_response service videoId = inr (video :: rest) →
  description (resource_snippet video) ≠ newDescription →
  updateYTDesc videoId newDescription service
  = ([VideosList videoId;
      VideosUpdate (request videoId newDescription video);
      match update_response service (request videoId newDescription video) with
      | inl err => ConsoleError ("The API returned an error: " +:+ err)
      | inr _ => ConsoleLog ["Updated video description."]
      end],
     inr ()).
Proof.
  intros H Hne. unfold updateYTDesc, videos_list, videos_update. simpl.
  rewrite H. simpl. rewrite decide_False by done. simpl.
  by destruct (update_response _ _).
Qed.

(** An update call in the trace comes from a fetched video whose
    description differs from the new one, and carries its request. *)
Lemma updateYTDesc_update_inv videoId newDescription service body :
  VideosUpdate body ∈ trace (updateYTDesc videoId newDescription service) →
  ∃ video rest,
    list_response service videoId = inr (video :: rest) ∧
    description (resource_snippet video) ≠ newDescription ∧
    body = request videoId newDescription video.
Proof.
  destruct (list_response service videoId) as [err|[|video rest]] eqn:Hlist.
  - rewrite (updateYTDesc_list_fails _ _ _ _ Hlist). simpl.
    intros H. repeat (apply elem_of_cons in H as [?|H]; [done|]).
    by apply elem_of_nil in H.
  - rewrite (updateYTDesc_no_item _ _ _ Hlist).
    intros H. repeat (apply elem_of_cons in H as [?|H]; [done|]).
    by apply elem_of_nil in H.
  - destruct (decide (description (resource_snippet video) = newDescription))
      as [Heq|Hne].
    + rewrite (updateYTDesc_same _ _ _ _ _ Hlist Heq). simpl.
      intros H. repeat (apply elem_of_cons in H as [?|H]; [done|]).
      by apply elem_of_nil in H.
    + rewrite (updateYTDesc_differs _ _ _ _ _ Hlist Hne). simpl.
      intros H. exists video, rest. split_and!; [done..|].
      apply elem_of_cons in H as [?|H]; [done|].
      apply elem_of_cons in H as [?|H]; [congruence|].
      apply elem_of_cons in H as [H|H]; [|by apply elem_of_nil in H].
      by destruct (update_response _ _).
Qed.

(** C2: when the remote description equals the new one, [updateYTDesc]
    reports that the description is up to date and returns with no update
    call; an update call is issued only when the two differ. *)
Theorem updateYTDesc_short_circuit videoId newDescription service :
  (∀ video rest,
     list_response service videoId = inr (video :: rest) →
     description (resource_snippet video) = newDescription →
     updateYTDesc videoId newDescription service
     = ([VideosList videoId; ConsoleLog ["Description is already up to date."]],
        inr ()) ∧
     ∀ body, VideosUpdate body ∉ trace (updateYTDesc videoId newDescription service)) ∧
  (∀ body,
     VideosUpdate body ∈ trace (updateYTDesc videoId newDescription service) →
     ∃ video rest,
       list_response service videoId = inr (video :: rest) ∧
       description (resource_snippet video) ≠ newDescription).
Proof.
  split.
  - intros video rest Hlist Heq. split; [by apply (updateYTDesc_same _ _ _ video rest)|].
    intros body (video' & rest' & Hlist' & Hne & _)%updateYTDesc_update_inv.
    congruence.
  - intros body (video & rest & Hlist & Hne & _)%updateYTDesc_update_inv.
    by eauto.
Qed.

(** C5: the update call [updateYTDesc] issues carries the title and the
    category of the snippet it fetched, and the new description; it is
    issued once, after the fetch, when the descriptions differ. *)
Theorem updateYTDesc_preserves_title_category videoId newDescription service :
  (∀ body,
     VideosUpdate body ∈ trace (updateYTDesc videoId newDescription service) →
     ∃ video rest,
       list_response service videoId = inr (video :: rest) ∧
       body_id body = videoId ∧
       snippet_title (body_snippet body) = snippet_title (resource_snippet video) ∧
       categoryId (body_snippet body) = categoryId (resource_snippet video) ∧
       description (body_snippet body) = newDescription) ∧
  (∀ video rest,
     list_response service videoId = inr (video :: rest) →
     description (resource_snippet video) ≠ newDescription →
     ∃ last,
       trace (updateYTDesc videoId newDescription service)
       = [VideosList videoId;
          VideosUpdate
            {| body_id := videoId;
               body_snippet :=
                 {| snippet_title := snippet_title (resource_snippet video);
                    description := newDescription;
                    categoryId := categoryId (resource_snippet video) |} |};
          last] ∧
       ∀ body, last ≠ VideosUpdate body).
Proof.
  split.
  - intros body (video & rest & Hlist & _ & ->)%updateYTDesc_update_inv.
    by exists video, rest.
  - intros video rest Hlist Hne.
    rewrite (updateYTDesc_differs _ _ _ _ _ Hlist Hne). simpl.
    eexists. split; [reflexivity|]. intros body.
    by destruct (update_response _ _).
Qed.

End UpdateYTDesc.

Lemma updateYTDesc_short_circuit_witness :
  updateYTDesc "id1" "old text" one_video_service
  = ([VideosList "id1"; ConsoleLog ["Description is already up to date."]], inr ()).
Proof.
  destruct (updateYTDesc_short_circuit "id1" "old text" one_video_service)
    as [Hsame _].
  eapply Hsame; reflexivity.
Defined.

Lemma updateYTDesc_preserves_title_category_witness :
  ∃ last,
    trace (updateYTDesc "id1" "new text" one_video_service)
    = [VideosList "id1";
       VideosUpdate
         {| body_id := "id1";
            body_snippet :=
              {| snippet_title := "Random Walker";
                 description := "new text";
                 categoryId := "28" |} |};
       last] ∧
    ∀ body, last ≠ VideosUpdate body.
Proof.
  destruct (updateYTDesc_preserves_title_category "id1" "new text" one_video_service)
    as [_ Hsent].
  apply (Hsent {| resource_snippet :=
                    {| snippet_title := "Random Walker";
                       description := "old text";
                       categoryId := "28" |} |} []);
    [reflexivity | vm_compute; discriminate].
Defined.

(** *** The track index *)

Section Tracks.
Implicit Types (md : metadata) (vids : list video) (v : video) (t mt : track).

(** A metadata track with the candidate videos of its slug. *)
Local Abbreviation attach vids mt :=
  {| track_slug := track_slug mt;
     track_title := track_title mt;
     track_videos := filter (λ video, canonicalTrack video = track_slug mt) vids |}.

(** The synthetic track of the challenge videos. *)
Local Abbreviation challenges vids :=
  {| track_slug := "challenges";
     track_title := "Coding Challenges";
     track_videos := challengeVideos vids |}.

(** The metadata tracks that keep at least one candidate video. *)
Local Abbreviation kept md vids :=
  (filter (λ track, 0 < length (track_videos track))
     ((λ track, attach vids track) <$> metadata_tracks md)).

Lemma elem_of_kept md vids t :
  t ∈ kept md vids ↔
  ∃ mt, mt ∈ metadata_tracks md ∧ t = attach vids mt ∧ track_videos t ≠ [].
Proof.
  rewrite list_elem_of_filter, list_elem_of_fmap. split.
  - intros (Hlen & mt & -> & Hmt). exists mt. split_and!; [done..|].
    intros Hnil. rewrite Hnil in Hlen. simpl in Hlen. lia.
  - intros (mt & Hmt & -> & Hne). split; [|by eauto].
    destruct (track_videos _); [done|simpl; lia].
Qed.

Lemma elem_of_challengeVideos vids v :
  v ∈ challengeVideos vids ↔
  v ∈ vids ∧ startsWith (canonicalURL v) "challenges" = true.
Proof.
  unfold challengeVideos. rewrite list_elem_of_filter, Is_true_true. tauto.
Qed.

Lemma tracks_with_challenges md vids :
  challengeVideos vids ≠ [] →
  tracks md vids = kept md vids ++ [challenges vids].
Proof.
  intros Hne. unfold tracks. rewrite decide_True; [done|].
  destruct (challengeVideos vids); [done|simpl; lia].
Qed.

Lemma tracks_without_challenges md vids :
  challengeVideos vids = [] → tracks md vids = kept md vids.
Proof. intros Hnil. unfold tracks. by rewrite Hnil. Qed.

Lemma elem_of_tracks md vids t :
  t ∈ tracks md vids ↔
  t ∈ kept md vids ∨ (t = challenges vids ∧ challengeVideos vids ≠ []).
Proof.
  destruct (decide (challengeVideos vids = [])) as [Hnil|Hne].
  - rewrite tracks_without_challenges by done. tauto.
  - rewrite tracks_with_challenges, elem_of_app, list_elem_of_singleton by done.
    tauto.
Qed.

(** Every listed track holds at least one video. *)
Lemma tracks_nonempty md vids t :
  t ∈ tracks md vids → track_videos t ≠ [].
Proof.
  intros [(mt & _ & _ & Hne)%elem_of_kept|[-> Hne]]%elem_of_tracks; done.
Qed.

(** C7: every candidate video whose canonical URL starts with [challenges]
    is in the synthetic track (slug [challenges], title [Coding
    Challenges]) of the list; that track is listed only when there is such
    a video; no listed track is empty, and a metadata track that no
    candidate video names is not listed: a listed track with its slug can
    only be the synthetic one. *)
Theorem tracks_challenges_and_dropped md vids :
  let synthetic :=
    {| track_slug := "challenges";
       track_title := "Coding Challenges";
       track_videos := challengeVideos vids |} in
  (∀ v, v ∈ vids → startsWith (canonicalURL v) "challenges" = true →
        last (tracks md vids) = Some synthetic ∧ v ∈ track_videos synthetic) ∧
  (synthetic ∈ tracks md vids →
     ∃ v, v ∈ vids ∧ startsWith (canonicalURL v) "challenges" = true) ∧
  (∀ t, t ∈ tracks md vids → track_videos t ≠ []) ∧
  (∀ mt, mt ∈ metadata_tracks md →
         (∀ v, v ∈ vids → canonicalTrack v ≠ track_slug mt) →
         ∀ t, t ∈ tracks md vids → track_slug t = track_slug mt →
              t = synthetic).
Proof.
  intros synthetic. split_and!.
  - intros v Hv Hurl.
    assert (v ∈ challengeVideos vids) as Hin by by apply elem_of_challengeVideos.
    split; [|done]. rewrite tracks_with_challenges; [by rewrite last_snoc|].
    intros Hnil. rewrite Hnil in Hin. by apply elem_of_nil in Hin.
  - intros Hne%tracks_nonempty. simpl in Hne.
    destruct (challengeVideos vids) as [|v rest] eqn:Hch; [done|].
    exists v. apply elem_of_challengeVideos. rewrite Hch. by left.
  - apply tracks_nonempty.
  - intros mt Hmt Hnone t
      [(mt' & _ & -> & Hne)%elem_of_kept|[-> _]]%elem_of_tracks Hslug; [|done].
    simpl in *. exfalso. apply Hne.
    destruct (filter _ vids) as [|v rest] eqn:Hfilter; [done|]. exfalso.
    assert (v ∈ filter (λ video, canonicalTrack video = track_slug mt') vids)
      as [Hv Hin]%list_elem_of_filter by (rewrite Hfilter; by left).
    apply (Hnone v Hin). congruence.
Qed.

(** A candidate video whose canonical URL starts with [challenges] and
    whose canonical track is the slug of a metadata track is listed twice:
    under that track, and under the synthetic track that follows it in the
    list. *)
Lemma tracks_listed_twice md vids v mt :
  v ∈ vids →
  startsWith (canonicalURL v) "challenges" = true →
  mt ∈ metadata_tracks md →
  canonicalTrack v = track_slug mt →
  ∃ i j t,
    i < j ∧
    tracks md vids !! i = Some t ∧
    track_slug t = track_slug mt ∧ track_title t = track_title mt ∧
    v ∈ track_videos t ∧
    tracks md vids !! j
      = Some {| track_slug := "challenges";
                track_title := "Coding Challenges";
                track_videos := challengeVideos vids |} ∧
    v ∈ challengeVideos vids.
Proof.
  intros Hv Hurl Hmt Hslug.
  assert (v ∈ challengeVideos vids) as Hin by by apply elem_of_challengeVideos.
  assert (challengeVideos vids ≠ []) as Hne.
  { intros Hnil. rewrite Hnil in Hin. by apply elem_of_nil in Hin. }
  assert (v ∈ track_videos (attach vids mt)) as Hvt
    by by (simpl; apply list_elem_of_filter).
  assert (attach vids mt ∈ kept md vids) as (i & Hi)%list_elem_of_lookup.
  { apply elem_of_kept. exists mt. split_and!; [done..|].
    intros Hnil. rewrite Hnil in Hvt. by apply elem_of_nil in Hvt. }
  exists i, (length (kept md vids)), (attach vids mt).
  rewrite tracks_with_challenges by done.
  split_and!; [by apply lookup_lt_Some in Hi| |done..| |done].
  - by apply lookup_app_l_Some.
  - by apply list_lookup_middle.
Qed.

End Tracks.

Lemma tracks_challenges_and_dropped_witness :
  last (tracks sample_metadata [walker])
    = Some {| track_slug := "challenges";
              track_title := "Coding Challenges";
              track_videos := [walker] |} ∧
  ∀ t, t ∈ tracks sample_metadata [walker] → track_slug t ≠ "ml".
Proof.
  destruct (tracks_challenges_and_dropped sample_metadata [walker])
    as (Hsynthetic & _ & _ & Hdropped).
  split.
  - apply (Hsynthetic walker); [by left|reflexivity].
  - intros t Ht Hslug.
    assert (t = {| track_slug := "challenges";
                   track_title := "Coding Challenges";
                   track_videos := challengeVideos [walker] |}) as ->; [|done].
    apply (Hdropped {| track_slug := "ml"; track_title := "Machine Learning";
                       track_videos := [] |}); [|..|done|done].
    + right. by left.
    + intros v ->%list_elem_of_singleton. done.
Defined.

(** *** [main] *)

Section Main.
Implicit Types (w : world) (e : event) (dir : gmap string string)
  (md : metadata) (v : video) (t : track).

Lemma trace_readFileSync w file : trace (readFileSync w file) = [].
Proof. unfold readFileSync. by destruct (descriptions w ≫= _). Qed.

Lemma elem_of_trace_prompt w prompt_name message choices e :
  e ∈ trace (prompt w prompt_name message choices) →
  e = Prompt prompt_name message choices.
Proof.
  unfold prompt. rewrite elem_of_trace_bind. simpl.
  intros [H|(_ & _ & H)].
  - by apply list_elem_of_singleton in H.
  - destruct (choices !! _); by apply elem_of_nil in H.
Qed.

(** Authorization prompts for no track or video and calls no video API. *)
Lemma authorize_quiet w creds e :
  e ∈ trace (authorize w creds) → ¬ selection_prompt e ∧ ¬ remote_call e.
Proof.
  unfold authorize, getNewToken, storeToken.
  destruct (tokenFile w); simpl;
    try (destruct (tokenExchange w (enteredCode w)); simpl);
    try (destruct (mkdirError w); simpl);
    try (destruct (storeTokenError w); simpl);
    intros H; repeat (apply elem_of_cons in H as [->|H]; [by auto|]);
    by apply elem_of_nil in H.
Qed.

Lemma updateYTDesc_no_prompt videoId newDescription service e :
  e ∈ trace (updateYTDesc videoId newDescription service) →
  ¬ selection_prompt e.
Proof.
  destruct (list_response service videoId) as [err|[|video rest]] eqn:Hlist.
  - rewrite (updateYTDesc_list_fails _ _ _ _ Hlist). simpl.
    intros H. repeat (apply elem_of_cons in H as [->|H]; [by auto|]).
    by apply elem_of_nil in H.
  - rewrite (updateYTDesc_no_item _ _ _ Hlist).
    intros H. repeat (apply elem_of_cons in H as [->|H]; [by auto|]).
    by apply elem_of_nil in H.
  - destruct (decide (description (resource_snippet video) = newDescription))
      as [Heq|Hne].
    + rewrite (updateYTDesc_same _ _ _ _ _ Hlist Heq). simpl.
      intros H. repeat (apply elem_of_cons in H as [->|H]; [by auto|]).
      by apply elem_of_nil in H.
    + rewrite (updateYTDesc_differs _ _ _ _ _ Hlist Hne). simpl.
      destruct (update_response _ _);
        intros H; repeat (apply elem_of_cons in H as [->|H]; [by auto|]);
        by apply elem_of_nil in H.
Qed.

Lemma elem_of_readdirSync dir f : f ∈ readdirSync dir ↔ is_Some (dir !! f).
Proof.
  unfold readdirSync. rewrite list_elem_of_fmap. split.
  - intros ([f' text] & -> & H%elem_of_map_to_list). by eauto.
  - intros [text H]. exists (f, text). by rewrite elem_of_map_to_list.
Qed.

Lemma readdirSync_empty : readdirSync ∅ = [].
Proof. unfold readdirSync. by rewrite map_to_list_empty. Qed.

Lemma elem_of_videoIds files id :
  id ∈ videoIds files ↔
  ∃ f, f ∈ files ∧ endsWith f "json" = false ∧ id = file_videoId f.
Proof.
  unfold videoIds. rewrite list_elem_of_fmap. split.
  - intros (f & -> & [Hjson Hf]%list_elem_of_filter). exists f.
    split_and!; [done| |done]. by destruct (endsWith f "json").
  - intros (f & Hf & Hjson & ->). exists f. split; [done|].
    apply list_elem_of_filter. by rewrite Hjson.
Qed.

(** The videos of a listed track are candidate videos. *)
Lemma tracks_videos_candidates md vids t v :
  t ∈ tracks md vids → v ∈ track_videos t → v ∈ vids.
Proof.
  intros [(mt & _ & -> & _)%elem_of_kept|[-> _]]%elem_of_tracks; simpl.
  - by intros [_ ?]%list_elem_of_filter.
  - by intros [? _]%elem_of_challengeVideos.
Qed.

(** Where a video prompt in the trace of [main] comes from. *)
Lemma main_video_prompt_inv w message choices :
  Prompt "videoId" message choices ∈ trace (main w) →
  ∃ dir md t,
    descriptions w = Some dir ∧
    t ∈ tracks md (videos md (videoIds (readdirSync dir))) ∧
    choices
    = (λ video, {| name := title video +:+ " (" +:+ videoId video +:+ ")";
                   value := videoId video |}) <$> track_videos t.
Proof.
  unfold main. destruct (clientSecretFile w) as [err|err|content].
  - intros H. apply list_elem_of_singleton in H. done.
  - intros H. by apply elem_of_nil in H.
  - intros [H|(auth & _ & H)]%elem_of_trace_bind.
    { apply authorize_quiet in H as [H _]. by destruct H. }
    destruct (descriptions w) as [dir|] eqn:Hdir;
      [|by apply list_elem_of_singleton in H].
    case_decide; [by apply list_elem_of_singleton in H|].
    apply elem_of_trace_bind in H as [H|(text & _ & H)];
      [by rewrite trace_readFileSync in H; apply elem_of_nil in H|].
    apply elem_of_trace_bind in H as [H|(md & _ & H)];
      [by destruct (parseMetadata w text); apply elem_of_nil in H|].
    apply elem_of_trace_bind in H as [H|(trackSlug & _ & H)];
      [by apply elem_of_trace_prompt in H|].
    apply elem_of_trace_bind in H as [H|(t & Ht & H)];
      [by destruct (list_find _ _) as [[? ?]|]; apply elem_of_nil in H|].
    exists dir, md, t. split; [done|].
    destruct (list_find _ _) as [[i t']|] eqn:Hfind; [|done].
    injection Ht as ->. apply list_find_Some in Hfind as (Hi & _ & _).
    split; [by eapply list_elem_of_lookup_2|].
    apply elem_of_trace_bind in H as [H|(videoId' & _ & H)];
      [apply elem_of_trace_prompt in H; congruence|].
    apply elem_of_trace_bind in H as [H|(v & _ & H)];
      [by destruct (list_find _ _) as [[? ?]|]; apply elem_of_nil in H|].
    apply elem_of_trace_bind in H as [H|(_ & _ & H)];
      [by apply list_elem_of_singleton in H|].
    apply elem_of_trace_bind in H as [H|(newDescription & _ & H)];
      [by rewrite trace_readFileSync in H; apply elem_of_nil in H|].
    apply updateYTDesc_no_prompt in H. by destruct H.
Qed.

(** The tracks offered in the track prompt are the [tracks] constant. *)
Lemma main_track_prompt_inv w message choices :
  Prompt "trackSlug" message choices ∈ trace (main w) →
  ∃ dir md,
    descriptions w = Some dir ∧
    choices
    = (λ track, {| name := track_title track; value := track_slug track |})
        <$> tracks md (videos md (videoIds (readdirSync dir))).
Proof.
  unfold main. destruct (clientSecretFile w) as [err|err|content].
  - intros H. apply list_elem_of_singleton in H. done.
  - intros H. by apply elem_of_nil in H.
  - intros [H|(auth & _ & H)]%elem_of_trace_bind.
    { apply authorize_quiet in H as [H _]. by destruct H. }
    destruct (descriptions w) as [dir|] eqn:Hdir;
      [|by apply list_elem_of_singleton in H].
    case_decide; [by apply list_elem_of_singleton in H|].
    apply elem_of_trace_bind in H as [H|(text & _ & H)];
      [by rewrite trace_readFileSync in H; apply elem_of_nil in H|].
    apply elem_of_trace_bind in H as [H|(md & _ & H)];
      [by destruct (parseMetadata w text); apply elem_of_nil in H|].
    exists dir, md. split; [done|].
    apply elem_of_trace_bind in H as [H|(trackSlug & _ & H)];
      [apply elem_of_trace_prompt in H; congruence|].
    apply elem_of_trace_bind in H as [H|(t & Ht & H)];
      [by destruct (list_find _ _) as [[? ?]|]; apply elem_of_nil in H|].
    apply elem_of_trace_bind in H as [H|(videoId' & _ & H)];
      [by apply elem_of_trace_prompt in H|].
    apply elem_of_trace_bind in H as [H|(v & _ & H)];
      [by destruct (list_find _ (track_videos t)) as [[? ?]|];
          apply elem_of_nil in H|].
    apply elem_of_trace_bind in H as [H|(_ & _ & H)];
      [by apply list_elem_of_singleton in H|].
    apply elem_of_trace_bind in H as [H|(newDescription & _ & H)];
      [by rewrite trace_readFileSync in H; apply elem_of_nil in H|].
    apply updateYTDesc_no_prompt in H. by destruct H.
Qed.

End Main.

Section MainClaims.
Implicit Types (w : world) (e : event).

(** C3, as stated, fails: the video [abc] is offered although
    [bar_abc.txt] is not in [_descriptions], and the read of that file ends
    the run with an error. *)
Lemma main_offers_video_without_file :
  Prompt "videoId" "Select a video to update:"
    [ {| name := "T (abc)"; value := "abc" |} ] ∈ trace (main mismatch_world) ∧
  descriptions mismatch_world ≫= (.!! "bar_abc.txt") = None ∧
  outcome (main mismatch_world)
  = inl "Error: ENOENT: no such file or directory, open '_descriptions/bar_abc.txt'".
Proof.
  split_and!; [|vm_compute; reflexivity..].
  vm_compute. apply list_elem_of_further, list_elem_of_here.
Qed.

(** C3 (amended): for every video in the video prompt of [main], the
    [_descriptions] directory holds a file whose name does not end in
    [json] and yields the video's id (the text before the first [.],
    without its part before the first [_]). *)
Theorem main_offered_video_has_id_file w message choices c :
  Prompt "videoId" message choices ∈ trace (main w) →
  c ∈ choices →
  ∃ dir f,
    descriptions w = Some dir ∧
    is_Some (dir !! f) ∧
    endsWith f "json" = false ∧
    value c = join (drop 1 (split (default "" (split f "." !! 0)) "_")) "_".
Proof.
  intros (dir & md & t & Hdir & Ht & ->)%main_video_prompt_inv
    (v & -> & Hv)%list_elem_of_fmap.
  pose proof (tracks_videos_candidates _ _ _ _ Ht Hv) as Hcand.
  unfold videos in Hcand. apply list_elem_of_filter in Hcand as [Hid _].
  apply elem_of_videoIds in Hid as (f & Hf%elem_of_readdirSync & Hjson & Hid).
  exists dir, f. by split_and!.
Qed.

Lemma main_offered_video_has_id_file_witness :
  ∃ dir f,
    descriptions mismatch_world = Some dir ∧
    is_Some (dir !! f) ∧
    endsWith f "json" = false ∧
    "abc" = join (drop 1 (split (default "" (split f "." !! 0)) "_")) "_".
Proof.
  apply (main_offered_video_has_id_file mismatch_world
           "Select a video to update:"
           [ {| name := "T (abc)"; value := "abc" |} ]
           {| name := "T (abc)"; value := "abc" |}).
  - vm_compute. apply list_elem_of_further, list_elem_of_here.
  - apply list_elem_of_here.
Defined.

Lemma main_without_descriptions w content :
  descriptions w = None ∨ descriptions w = Some ∅ →
  clientSecretFile w = Parsed content →
  main w
  = (_ <- authorize w content ;;
     console_log ["No generated descriptions available. Try generating them first by using the yt-desc script."]).
Proof.
  intros Hdir Hsecret. unfold main. rewrite Hsecret.
  destruct Hdir as [->| ->]; [done|].
  by rewrite readdirSync_empty.
Qed.

(** C8, as stated, fails: the guard counts every entry of [_descriptions].
    With [metadata.json] alone no file names a video, no description file
    is there, and [main] goes on to a track prompt that has no entry. *)
Lemma main_metadata_only_prompts :
  (∃ dir, descriptions metadata_only_world = Some dir ∧
          videoIds (readdirSync dir) = [] ∧
          ∀ f, is_Some (dir !! f) → f = "metadata.json") ∧
  main metadata_only_world
  = ([Prompt "trackSlug" "Select a track to update:" []],
     inl "Error: prompt was closed") ∧
  selection_prompt (Prompt "trackSlug" "Select a track to update:" []).
Proof.
  split_and!; [|vm_compute; reflexivity|exact I].
  eexists. split_and!; [reflexivity|vm_compute; reflexivity|].
  intros f [text Hf]. apply lookup_singleton_Some in Hf as [<- _]. done.
Qed.

(** C8 (amended): when [_descriptions] is missing or has no entry at all,
    nothing in the run of [main] is a track or video prompt or a call of the
    video API, and, the client secret read and the authorization done,
    [main] prints the message and returns. *)
Theorem main_no_descriptions w :
  descriptions w = None ∨ descriptions w = Some ∅ →
  (∀ e, e ∈ trace (main w) → ¬ selection_prompt e ∧ ¬ remote_call e) ∧
  (∀ content tok,
     clientSecretFile w = Parsed content →
     outcome (authorize w content) = inr tok →
     main w
     = (trace (authorize w content) ++
          [ConsoleLog ["No generated descriptions available. Try generating them first by using the yt-desc script."]],
        inr ())).
Proof.
  intros Hdir. split.
  - intros e. destruct (clientSecretFile w) as [err|err|content] eqn:Hsecret.
    + unfold main. rewrite Hsecret. intros ->%list_elem_of_singleton. by auto.
    + unfold main. rewrite Hsecret. intros H. by apply elem_of_nil in H.
    + rewrite (main_without_descriptions _ _ Hdir Hsecret).
      intros [H|(_ & _ & ->%list_elem_of_singleton)]%elem_of_trace_bind;
        [by apply authorize_quiet in H|by auto].
  - intros content tok Hsecret Hauth.
    rewrite (main_without_descriptions _ _ Hdir Hsecret).
    unfold outcome, trace in *. destruct (authorize w content) as [tr [err|a]];
      simpl in *; [done|done].
Qed.

Lemma main_no_descriptions_witness :
  main empty_world
  = ([ConsoleLog ["No generated descriptions available. Try generating them first by using the yt-desc script."]],
     inr ()).
Proof.
  destruct (main_no_descriptions empty_world) as [_ Hreturns]; [by right|].
  apply (Hreturns "client secret" "token"); reflexivity.
Defined.

End MainClaims.

(** ** [main]: the two track menus of a challenge video *)

Section MainTracks.
Implicit Types (w : world) (e : event) (dir : gmap string string)
  (md : metadata) (v : video) (t mt : track).

(** What the track prompt and the video prompt list. *)
Local Abbreviation track_choices listed :=
  ((λ track, {| name := track_title track; value := track_slug track |})
     <$> listed).
Local Abbreviation video_choices t :=
  ((λ video, {| name := title video +:+ " (" +:+ videoId video +:+ ")";
                value := videoId video |}) <$> track_videos t).

(** The answer to a prompt is the value of the entry picked. *)
Lemma outcome_prompt w prompt_name message choices answer :
  outcome (prompt w prompt_name message choices) = inr answer ↔
  ∃ c, choices !! pick w prompt_name choices = Some c ∧ value c = answer.
Proof.
  unfold prompt. rewrite outcome_bind. simpl.
  destruct (choices !! pick w prompt_name choices) as [c|]; simpl.
  - split; [intros [= <-]; by eauto|]. by intros (c' & [= <-] & <-).
  - split; [done|]. by intros (c' & ? & _).
Qed.

(** Once the track prompt is answered, [main] shows the videos of the first
    track that bears the slug picked. *)
Lemma main_shows_video_prompt w content tok dir text md picked i t :
  clientSecretFile w = Parsed content →
  outcome (authorize w content) = inr tok →
  descriptions w = Some dir →
  dir !! "metadata.json" = Some text →
  parseMetadata w text = inr md →
  track_choices (tracks md (videos md (videoIds (readdirSync dir))))
    !! pick w "trackSlug"
         (track_choices (tracks md (videos md (videoIds (readdirSync dir)))))
    = Some picked →
  list_find (λ x, track_slug x = value picked)
    (tracks md (videos md (videoIds (readdirSync dir)))) = Some (i, t) →
  Prompt "videoId" "Select a video to update:" (video_choices t)
    ∈ trace (main w).
Proof.
  intros Hsecret Hauth Hdir Htext Hmd Hpicked Hfind.
  assert (length (readdirSync dir) ≠ 0) as Hlen.
  { assert ("metadata.json" ∈ readdirSync dir) as Hin
      by (apply elem_of_readdirSync; by eauto).
    destruct (readdirSync dir); [by apply elem_of_nil in Hin|done]. }
  unfold main. rewrite Hsecret.
  apply elem_of_trace_bind. right. exists tok. split; [done|].
  cbv zeta. rewrite Hdir, decide_False by done.
  apply elem_of_trace_bind. right. exists text. split.
  { unfold readFileSync. rewrite Hdir. simpl. by rewrite Htext. }
  apply elem_of_trace_bind. right. exists md. split; [by rewrite Hmd|].
  apply elem_of_trace_bind. right. exists (value picked). split.
  { apply outcome_prompt. by eauto. }
  apply elem_of_trace_bind. right. exists t. split; [by rewrite Hfind|].
  apply elem_of_trace_bind. left.
  unfold prompt. apply elem_of_trace_bind. left. simpl. by left.
Qed.

(** The first track with the slug of the video's track lists the video, and
    so does the first track with the slug [challenges] when no metadata
    track bears it. *)
Lemma tracks_find_lists_video md vids v mt trackSlug :
  v ∈ vids →
  startsWith (canonicalURL v) "challenges" = true →
  mt ∈ metadata_tracks md →
  canonicalTrack v = track_slug mt →
  trackSlug = track_slug mt ∨
  (trackSlug = "challenges" ∧
   ∀ mt', mt' ∈ metadata_tracks md → track_slug mt' ≠ "challenges") →
  ∃ i t, list_find (λ x, track_slug x = trackSlug) (tracks md vids) = Some (i, t) ∧
         v ∈ track_videos t.
Proof.
  intros Hv Hurl Hmt Hslug Hpick.
  destruct (tracks_listed_twice md vids v mt Hv Hurl Hmt Hslug)
    as (i1 & i2 & t1 & _ & Ht1 & Hslug1 & _ & _ & Ht2 & Hin2).
  assert (is_Some (list_find (λ x, track_slug x = trackSlug) (tracks md vids)))
    as [[i t] Hfind].
  { destruct Hpick as [->|[-> _]].
    - apply (list_find_elem_of _ _ t1); [by eapply list_elem_of_lookup_2|done].
    - eapply list_find_elem_of; [by eapply list_elem_of_lookup_2|done]. }
  exists i, t. split; [done|].
  apply list_find_Some in Hfind as (Hi & Hfound & _).
  apply list_elem_of_lookup_2 in Hi.
  apply elem_of_tracks in Hi as [(mt' & Hmt' & -> & _)%elem_of_kept|[-> _]];
    simpl in *.
  - destruct Hpick as [->|[-> Hnone]]; [|by destruct (Hnone mt' Hmt')].
    apply list_elem_of_filter. split; [congruence|done].
  - done.
Qed.

(** C10, as stated, fails: [walker] is a challenge of the track [p5], and a
    metadata track of its own bears the slug [challenges]; whichever entry
    of the track prompt is picked, the video prompt lists [walker] only for
    the first one, [p5]: both entries with the value [challenges] open the
    metadata track, which [tracks.find] meets first. *)
Lemma main_challenges_menu_shadowed :
  (walker ∈ videos clash_metadata
              (videoIds ["metadata.json"; "walker_abc.txt"; "maze_xyz.txt"]) ∧
   startsWith (canonicalURL walker) "challenges" = true ∧
   canonicalTrack walker = "p5") ∧
  ∀ k message choices,
    Prompt "videoId" message choices ∈ trace (main (clash_world k)) →
    {| name := "Random Walker (abc)"; value := "abc" |} ∈ choices →
    k = 0.
Proof.
  split.
  - split_and!; [|reflexivity..]. vm_compute. apply list_elem_of_here.
  - intros [|k] message choices H Hin; [reflexivity|]. exfalso.
    assert (∃ tr other,
              trace (main (clash_world (S k)))
              = Prompt "trackSlug" "Select a track to update:" tr :: other ∧
              ∀ e, e ∈ other →
                   e = Prompt "videoId" "Select a video to update:"
                         [ {| name := "Maze Generator (xyz)"; value := "xyz" |} ] ∨
                   ¬ selection_prompt e) as Hruns.
    { destruct k as [|[|k]]; eexists _, _;
        (split; [vm_compute; reflexivity|]); intros e He;
        repeat (apply elem_of_cons in He as [->|He];
                  [first [by left | by right; intros []]|]);
        by apply elem_of_nil in He. }
    destruct Hruns as (tr & other & Htrace & Hother). rewrite Htrace in H.
    apply elem_of_cons in H as [H|H].
    { discriminate H. }
    destruct (Hother _ H) as [Heq|Hnot]; [|by destruct Hnot].
    injection Heq as _ ->.
    apply list_elem_of_singleton in Hin. discriminate Hin.
Qed.

(** C10 (amended): a candidate video whose canonical URL starts with
    [challenges] and whose canonical track is the slug of a metadata track
    is listed under that track and under the synthetic track, which comes
    later in the list.  When the user picks an entry of the track prompt
    with the slug of that track, the video prompt lists the video; when the
    user picks an entry with the slug [challenges], it does so too as long
    as no metadata track bears the slug [challenges]. *)
Theorem main_video_offered_twice w content tok dir text md v mt :
  clientSecretFile w = Parsed content →
  outcome (authorize w content) = inr tok →
  descriptions w = Some dir →
  dir !! "metadata.json" = Some text →
  parseMetadata w text = inr md →
  v ∈ videos md (videoIds (readdirSync dir)) →
  startsWith (canonicalURL v) "challenges" = true →
  mt ∈ metadata_tracks md →
  canonicalTrack v = track_slug mt →
  (∃ i j t,
     i < j ∧
     tracks md (videos md (videoIds (readdirSync dir))) !! i = Some t ∧
     track_slug t = track_slug mt ∧ track_title t = track_title mt ∧
     v ∈ track_videos t ∧
     tracks md (videos md (videoIds (readdirSync dir))) !! j
       = Some {| track_slug := "challenges";
                 track_title := "Coding Challenges";
                 track_videos :=
                   challengeVideos (videos md (videoIds (readdirSync dir))) |} ∧
     v ∈ challengeVideos (videos md (videoIds (readdirSync dir)))) ∧
  ∀ picked,
    ((λ track, {| name := track_title track; value := track_slug track |})
       <$> tracks md (videos md (videoIds (readdirSync dir))))
      !! pick w "trackSlug"
           ((λ track, {| name := track_title track; value := track_slug track |})
              <$> tracks md (videos md (videoIds (readdirSync dir))))
      = Some picked →
    value picked = track_slug mt ∨
    (value picked = "challenges" ∧
     ∀ mt', mt' ∈ metadata_tracks md → track_slug mt' ≠ "challenges") →
    ∃ choices,
      Prompt "videoId" "Select a video to update:" choices ∈ trace (main w) ∧
      {| name := title v +:+ " (" +:+ videoId v +:+ ")"; value := videoId v |}
        ∈ choices.
Proof.
  intros Hsecret Hauth Hdir Htext Hmd Hv Hurl Hmt Hslug. split.
  - by apply tracks_listed_twice.
  - intros picked Hpicked Hvalue.
    destruct (tracks_find_lists_video md _ v mt (value picked) Hv Hurl Hmt Hslug
                Hvalue) as (i & t & Hfind & Hin).
    exists (video_choices t). split.
    + by apply (main_shows_video_prompt w content tok dir text md picked i t).
    + apply list_elem_of_fmap. by exists v.
Qed.

End MainTracks.

Lemma main_video_offered_twice_witness :
  ∃ choices,
    Prompt "videoId" "Select a video to update:" choices
      ∈ trace (main working_world) ∧
    {| name := "Random Walker" +:+ " (" +:+ "abc" +:+ ")"; value := "abc" |}
      ∈ choices.
Proof.
  destruct (main_video_offered_twice working_world "client secret" "token"
              {[ "metadata.json" := "{}"; "walker_abc.txt" := "new text" ]}
              "{}" sample_metadata walker
              {| track_slug := "p5"; track_title := "p5.js"; track_videos := [] |})
    as [_ Hmenu]; try reflexivity.
  - vm_compute. apply list_elem_of_here.
  - by left.
  - apply (Hmenu {| name := "p5.js"; value := "p5" |}); [reflexivity|by left].
Defined.

(** * Further properties of the code *)

(** ** [useImages]: missing keys, concatenation, order *)

Section ImagesMore.
Context {Data : Type}.
Implicit Types (nodes : list (node Data)) (n : node Data)
  (property k : string) (images : imagesObject Data).

Local Abbreviation payload n := (gatsbyImageData (childImageSharp n)).
Local Abbreviation keys nodes property :=
  ((λ n, propertyKey n property) <$> nodes).
Local Abbreviation step property :=
  (λ images n, assign images (propertyKey n property) (payload n)).

Lemma useImages_foldl nodes1 nodes2 property :
  useImages (nodes1 ++ nodes2) property
  = foldl (step property) (useImages nodes1 property) nodes2.
Proof. unfold useImages, useMemo. by rewrite foldl_app. Qed.


(** Where the prototype is not [null], an assignment does the same to the
    entries whatever entries are there already. *)
Lemma assign_union images1 images2 (older : gmap string (imageData Data)) key value :
  (prototype images1 = NullPrototype ↔ prototype images2 = NullPrototype) →
  entries images1 = entries images2 ∪ older →
  (prototype (assign images1 key value) = NullPrototype ↔
   prototype (assign images2 key value) = NullPrototype) ∧
  entries (assign images1 key value)
  = entries (assign images2 key value) ∪ older.
Proof.
  intros Hnull Hentries. unfold assign.
  destruct (decide (key = "__proto__")); simpl;
    [|by rewrite Hentries, insert_union_l].
  destruct (prototype images1), (prototype images2); simpl;
    try (by destruct Hnull as [H1 H2]; (discriminate (H1 eq_refl) || discriminate (H2 eq_refl)));
    rewrite ?Hentries, ?insert_union_l; by destruct value.
Qed.

Lemma foldl_assign_union property nodes images1 images2
    (older : gmap string (imageData Data)) :
  (prototype images1 = NullPrototype ↔ prototype images2 = NullPrototype) →
  entries images1 = entries images2 ∪ older →
  entries (foldl (step property) images1 nodes)
  = entries (foldl (step property) images2 nodes) ∪ older.
Proof.
  revert images1 images2. induction nodes as [|n nodes IH]; [done|].
  intros images1 images2 Hnull Hentries. simpl.
  destruct (assign_union images1 images2 older (propertyKey n property)
              (payload n) Hnull Hentries) as [Hnull' Hentries'].
  by apply IH.
Qed.

Lemma useImages_prototype_not_null nodes property :
  (∀ n, n ∈ nodes → propertyKey n property = "__proto__" →
        payload n ≠ NullData) →
  prototype (useImages nodes property) ≠ NullPrototype.
Proof.
  induction nodes as [|n nodes IH] using rev_ind; [done|].
  intros Hnodes. rewrite useImages_snoc. unfold assign.
  assert (prototype (useImages nodes property) ≠ NullPrototype) as Hprev.
  { apply IH. intros m Hm. apply Hnodes, elem_of_app. by left. }
  destruct (decide (propertyKey n property = "__proto__")) as [Hkey|Hkey];
    [|done].
  assert (payload n ≠ NullData) as Hpayload.
  { apply Hnodes; [|done]. apply elem_of_app. right. by left. }
  destruct (prototype (useImages nodes property)); [|..|done];
    simpl; by destruct (payload n).
Qed.

(** X2: the index of two node lists put one after the other has, at every
    key other than [__proto__], the entry of the two indexes, that of the
    second list winning; the entries are those of the two indexes
    altogether as long as no node of the first list is keyed [__proto__]
    with [null] image data (which would turn the prototype setter off for
    the second list). *)
Theorem useImages_app nodes1 nodes2 property :
  (∀ k, k ≠ "__proto__" →
        entries (useImages (nodes1 ++ nodes2) property) !! k
        = (entries (useImages nodes2 property)
             ∪ entries (useImages nodes1 property)) !! k) ∧
  ((∀ n, n ∈ nodes1 → propertyKey n property = "__proto__" →
         gatsbyImageData (childImageSharp n) ≠ NullData) →
   entries (useImages (nodes1 ++ nodes2) property)
   = entries (useImages nodes2 property) ∪ entries (useImages nodes1 property)).
Proof.
  split.
  - intros k Hk. induction nodes2 as [|n nodes2 IH] using rev_ind.
    + rewrite app_nil_r, useImages_nil. simpl. by rewrite (left_id_L ∅ (∪)).
    + rewrite app_assoc, !useImages_snoc.
      destruct (decide (k = propertyKey n property)) as [->|Hne].
      * rewrite !assign_entries by done.
        by rewrite <- insert_union_l, !lookup_insert_eq.
      * rewrite lookup_union, !assign_lookup_ne by done.
        by rewrite IH, lookup_union.
  - intros Hnodes1. rewrite useImages_foldl.
    change (useImages nodes2 property)
      with (foldl (step property)
              {| entries := ∅; prototype := ObjectPrototype |} nodes2).
    apply foldl_assign_union; simpl.
    + split; [|done]. intros Hnull.
      by destruct (useImages_prototype_not_null _ _ Hnodes1).
    + by rewrite (left_id_L ∅ (∪)).
Qed.

(** Assignments to different keys can be done in either order. *)
Lemma assign_commute images key1 value1 key2 value2 :
  key1 ≠ key2 →
  assign (assign images key1 value1) key2 value2
  = assign (assign images key2 value2) key1 value1.
Proof.
  intros Hne. unfold assign.
  destruct (decide (key1 = "__proto__")), (decide (key2 = "__proto__"));
    [congruence|..]; destruct (prototype images); simpl;
    rewrite ?decide_True, ?decide_False by done; simpl;
    f_equal; by apply insert_insert_ne || done.
Qed.

Lemma foldl_assign_permutation property nodes nodes' images :
  NoDup (keys nodes property) →
  nodes ≡ₚ nodes' →
  foldl (step property) images nodes = foldl (step property) images nodes'.
Proof.
  intros Hnodup Hperm. revert images Hnodup.
  induction Hperm as [|n l l' Hperm IH|n1 n2 l|l1 l2 l3 H12 IH12 H23 IH23];
    intros images Hnodup.
  - done.
  - simpl. apply IH. simpl in Hnodup. by apply NoDup_cons_1_2 in Hnodup.
  - simpl. f_equal. apply assign_commute. simpl in Hnodup.
    apply NoDup_cons_1_1 in Hnodup. intros Heq. apply Hnodup. rewrite Heq.
    by left.
  - rewrite IH12 by done. apply IH23. by rewrite <- H12.
Qed.

(** X3: with distinct keys the index does not depend on the order of the
    nodes. *)
Theorem useImages_permutation nodes nodes' property :
  NoDup ((λ n, propertyKey n property) <$> nodes) →
  nodes ≡ₚ nodes' →
  useImages nodes property = useImages nodes' property.
Proof.
  intros Hnodup Hperm. unfold useImages, useMemo.
  by apply foldl_assign_permutation.
Qed.

Lemma objectPrototypeKey_not_proto property :
  default "undefined" (objectPrototypeKey property) ≠ "__proto__".
Proof.
  unfold objectPrototypeKey. repeat case_decide; simpl; discriminate.
Qed.

(** X4: when no node has the field named by [property], every node lands on
    one key, [undefined] or, for a name inherited from [Object.prototype],
    what the inherited member prints as: the index has that one entry, with
    the image data of the last node. *)
Theorem useImages_missing_property nodes property n :
  property ≠ "childImageSharp" →
  (∀ m, m ∈ nodes → fields m !! property = None) →
  last nodes = Some n →
  useImages nodes property
  = {| entries :=
         {[ default "undefined" (objectPrototypeKey property)
              := gatsbyImageData (childImageSharp n) ]};
       prototype := ObjectPrototype |}.
Proof.
  intros Hprop Hmissing Hlast.
  set (key := default "undefined" (objectPrototypeKey property)).
  assert (key ≠ "__proto__") as Hkey by apply objectPrototypeKey_not_proto.
  assert (∀ m, m ∈ nodes → propertyKey m property = key) as Hkeys.
  { intros m Hm. unfold propertyKey. rewrite decide_False by done.
    by rewrite (Hmissing m Hm). }
  assert ("__proto__" ∉ keys nodes property) as Hplain.
  { intros (m & Hm & Hin)%list_elem_of_fmap. rewrite (Hkeys m Hin) in Hm.
    by apply Hkey. }
  destruct (useImages_plain _ _ Hplain) as [Hproto Hentry].
  assert (entries (useImages nodes property) = {[ key := payload n ]}) as Hentries.
  { apply map_eq. intros k. destruct (decide (k = key)) as [->|Hne].
    - rewrite lookup_singleton_eq.
      destruct nodes as [|n0 nodes0 _] using rev_ind; [done|].
      rewrite last_snoc in Hlast. injection Hlast as ->.
      rewrite useImages_snoc, Hkeys by (apply elem_of_app; right; by left).
      by rewrite assign_entries, lookup_insert_eq.
    - rewrite lookup_singleton_ne by done.
      destruct (decide (k = "__proto__")) as [->|Hk]; [done|].
      apply eq_None_not_Some. rewrite useImages_is_Some by done.
      intros (m & Hm & Hin)%list_elem_of_fmap. rewrite (Hkeys m Hin) in Hm.
      done. }
  destruct (useImages nodes property) as [e p]. simpl in *. by subst.
Qed.

Lemma useImages_size_le nodes property :
  size (entries (useImages nodes property)) ≤ length nodes ∧
  (size (entries (useImages nodes property)) = length nodes →
   NoDup (keys nodes property) ∧ "__proto__" ∉ keys nodes property).
Proof.
  induction nodes as [|n nodes [IHle IHeq]] using rev_ind.
  - split; [done|]. intros _. split; [constructor|]. by intros ?%elem_of_nil.
  - rewrite useImages_snoc, length_app, fmap_app. simpl.
    destruct (decide (propertyKey n property = "__proto__")) as [Hkey|Hkey].
    + unfold assign. rewrite decide_True by done.
      destruct (prototype (useImages nodes property)) eqn:Hproto; simpl;
        [split; lia|split; lia|].
      destruct (entries (useImages nodes property) !! propertyKey n property)
        as [x|] eqn:Hk.
      * rewrite map_size_insert_Some by eauto. split; lia.
      * rewrite map_size_insert_None by done. split; [lia|]. intros Hsize.
        destruct IHeq as [_ Hplain]; [lia|].
        destruct (useImages_plain _ _ Hplain) as [Hobj _]. congruence.
    + rewrite assign_entries by done.
      destruct (entries (useImages nodes property) !! propertyKey n property)
        as [x|] eqn:Hk.
      * rewrite map_size_insert_Some by eauto. split; lia.
      * rewrite map_size_insert_None by done. split; [lia|]. intros Hsize.
        destruct IHeq as [Hnodup Hplain]; [lia|].
        assert (propertyKey n property ∉ keys nodes property) as Hfresh.
        { rewrite <- useImages_is_Some by done. rewrite Hk. by intros [? ?]. }
        split.
        -- apply NoDup_app. split_and!; [done| |apply NoDup_singleton].
           by intros k Hin ->%list_elem_of_singleton.
        -- rewrite not_elem_of_app, list_elem_of_singleton. by split.
Qed.

(** X5: the index never has more entries than there are nodes, and it has
    as many exactly when the keys of the nodes are distinct and none of
    them is [__proto__]. *)
Theorem useImages_size_iff nodes property :
  size (entries (useImages nodes property)) ≤ length nodes ∧
  (size (entries (useImages nodes property)) = length nodes ↔
   NoDup ((λ n, propertyKey n property) <$> nodes) ∧
   "__proto__" ∉ (λ n, propertyKey n property) <$> nodes).
Proof.
  split; [apply useImages_size_le|]. split.
  - apply useImages_size_le.
  - intros [Hnodup Hplain]. by apply useImages_size.
Qed.

End ImagesMore.


Lemma useImages_app_witness :
  entries (useImages ([named_node "a" 1] ++ [named_node "a" 2]) "name")
  = entries (useImages [named_node "a" 2] "name")
      ∪ entries (useImages [named_node "a" 1] "name").
Proof.
  destruct (useImages_app [named_node "a" 1] [named_node "a" 2] "name")
    as [_ Hentries].
  apply Hentries. intros n ->%list_elem_of_singleton. discriminate.
Defined.

(** After a node keyed [__proto__] with [null] image data a second such node
    gets an own entry, which it does not get on its own. *)
Lemma useImages_app_after_null :
  entries (useImages ([null_node "__proto__"] ++ [named_node "__proto__" 2]) "name")
    = {[ "__proto__" := ImageData 2 ]} ∧
  entries (useImages [named_node "__proto__" 2] "name")
    ∪ entries (useImages [null_node "__proto__"] "name") = ∅.
Proof. split; reflexivity. Qed.

Lemma useImages_permutation_witness :
  useImages [named_node "a" 1; named_node "b" 2] "name"
  = useImages [named_node "b" 2; named_node "a" 1] "name".
Proof.
  apply useImages_permutation.
  - apply (bool_decide_unpack _). vm_compute. reflexivity.
  - apply perm_swap.
Defined.

Lemma useImages_missing_property_witness :
  useImages [bare_node 1; bare_node 2] "constructor"
  = {| entries := {[ "function Object() { [native code] }" := ImageData 2 ]};
       prototype := ObjectPrototype |}.
Proof.
  apply (useImages_missing_property [bare_node 1; bare_node 2] "constructor"
           (bare_node 2)).
  - discriminate.
  - intros m Hm. apply elem_of_cons in Hm as [->|Hm]; [reflexivity|].
    apply list_elem_of_singleton in Hm as ->. reflexivity.
  - reflexivity.
Defined.

(** ** More facts about the string methods *)

Section StringFactsMore.
Implicit Types (s pre post : string) (c sep : ascii).

Lemma replace_cons c s pat rep :
  replace (String c s) pat rep
  = if startsWith (String c s) pat
    then rep +:+ skip (String.length pat) (String c s)
    else String c (replace s pat rep).
Proof. reflexivity. Qed.

(** Splitting at every separator: the parts of the two sides, in a row. *)
Lemma split_app_sep pre post sep :
  split (pre +:+ String sep post) sep = split pre sep ++ split post sep.
Proof.
  induction pre as [|c pre IH].
  - rewrite app_empty. simpl. by rewrite decide_True.
  - rewrite app_String. simpl. destruct (decide (c = sep)); rewrite IH; [done|].
    by destruct (split_cons pre sep) as (hd & tl & ->).
Qed.

Lemma split_length s sep : 0 < length (split s sep).
Proof. destruct (split_cons s sep) as (hd & tl & ->). simpl. lia. Qed.

(** [join] undoes [split]. *)
Lemma join_split s sep : join (split s sep) (String sep "") = s.
Proof.
  induction s as [|c s IH]; [done|]. simpl.
  destruct (split_cons s sep) as (hd & tl & Hs). rewrite Hs in *.
  destruct (decide (c = sep)) as [->|Hne].
  - change (join ("" :: hd :: tl) (String sep ""))
      with ("" +:+ String sep "" +:+ join (hd :: tl) (String sep "")).
    by rewrite IH.
  - destruct tl as [|hd' tl]; simpl in *; [by rewrite IH|].
    by rewrite app_String, IH.
Qed.

Lemma length_app_string pre post :
  String.length (pre +:+ post) = String.length pre + String.length post.
Proof.
  induction pre as [|c pre IH]; [done|]. rewrite app_String. simpl. by rewrite IH.
Qed.

Lemma skip_app pre post : skip (String.length pre) (pre +:+ post) = post.
Proof. induction pre as [|c pre IH]; [by destruct post|]. by rewrite app_String. Qed.

(** A name that ends in [.txt] does not end in [json]. *)
Lemma endsWith_txt_json s : endsWith (s +:+ ".txt") "json" = false.
Proof.
  unfold endsWith. rewrite length_app_string. simpl String.length.
  rewrite decide_True by lia.
  replace (String.length s + 4 - 4) with (String.length s) by lia.
  by rewrite skip_app.
Qed.

(** A [/] after [pre] neither completes nor breaks an occurrence of [%20]
    at the start. *)
Lemma startsWith_percent20_slash pre post :
  startsWith (pre +:+ String "/" post) "%20" = startsWith pre "%20".
Proof.
  destruct pre as [|c1 [|c2 [|c3 pre]]];
    rewrite ?app_String, ?app_empty; simpl; repeat case_decide; done.
Qed.

(** The replacement of [%20] leaves a [/] and what stands before it in
    place. *)
Lemma replace_percent20_slash pre post :
  ∃ post',
    replace (pre +:+ String "/" post) "%20" " "
    = replace pre "%20" " " +:+ String "/" post'.
Proof.
  induction pre as [|c pre (post' & IH)].
  - exists (replace post "%20" " "). by rewrite app_empty.
  - rewrite app_String, !replace_cons, <- app_String, startsWith_percent20_slash.
    destruct (startsWith (String c pre) "%20") eqn:Hstart.
    + exists post. destruct pre as [|c2 [|c3 pre]]; simpl in Hstart;
        repeat case_decide; try done.
    + exists post'. by rewrite IH, <- app_String.
Qed.

End StringFactsMore.

(** ** [useSelectedTags]: what is checked and what is not *)

Section SelectedTagsMore.

Local Abbreviation segment2 pathname :=
  (split (replace pathname "%20" " ") "/" !! 2).

Local Ltac reassoc :=
  repeat (rewrite app_assoc_string || rewrite app_String || rewrite app_empty);
  reflexivity.

(** The result is read from the segment at index 2 alone. *)
Lemma useSelectedTags_ext pathname pathname' :
  segment2 pathname = segment2 pathname' →
  useSelectedTags pathname = useSelectedTags pathname'.
Proof. intros H. unfold useSelectedTags. by rewrite H. Qed.

Lemma includes_plus_app s post :
  includes (s +:+ String "+" post) "+" = true.
Proof.
  rewrite includes_char_app, includes_char_cons.
  rewrite bool_decide_eq_true_2 by done. by rewrite orb_true_r.
Qed.

(** X6: the names before the [:] are not checked: whatever stands there, the
    first [+]-part gives the language value and the second the topic
    value. *)
Theorem useSelectedTags_prefix_unchecked pathname prefix1 prefix2 v1 v2 :
  split (replace pathname "%20" " ") "/" !! 2
    = Some (prefix1 +:+ ":" +:+ v1 +:+ "+" +:+ prefix2 +:+ ":" +:+ v2) →
  includes prefix1 "+" = false → includes prefix1 ":" = false →
  includes prefix2 "+" = false → includes prefix2 ":" = false →
  includes v1 "+" = false → includes v1 ":" = false →
  includes v2 "+" = false → includes v2 ":" = false →
  useSelectedTags pathname = inr (Some v1, Some v2).
Proof.
  intros Hseg Hp1 Hp1' Hp2 Hp2' Hv1 Hv1' Hv2 Hv2'.
  assert (prefix1 +:+ ":" +:+ v1 +:+ "+" +:+ prefix2 +:+ ":" +:+ v2
          = (prefix1 +:+ String ":" v1) +:+ String "+" (prefix2 +:+ String ":" v2))
    as Hshape by reassoc.
  rewrite Hshape in Hseg.
  rewrite (useSelectedTags_segment _ _ (prefix1 +:+ String ":" v1)
             (prefix2 +:+ String ":" v2) [] Hseg).
  - by rewrite !split_app, !split_without.
  - apply includes_plus_app.
  - rewrite split_app, split_without; [done|..];
      rewrite includes_char_app, includes_char_cons;
      rewrite bool_decide_eq_false_2 by done; simpl; by rewrite ?Hp1, ?Hp2.
Qed.

(** X7: what follows a second [:] inside a part, and what follows a second
    [+] in the segment, is dropped. *)
Theorem useSelectedTags_drops_trailing pathname prefix1 prefix2 v1 v2 x1 x2 rest :
  split (replace pathname "%20" " ") "/" !! 2
    = Some (prefix1 +:+ ":" +:+ v1 +:+ ":" +:+ x1 +:+ "+" +:+
            prefix2 +:+ ":" +:+ v2 +:+ ":" +:+ x2 +:+ "+" +:+ rest) →
  includes prefix1 "+" = false → includes prefix1 ":" = false →
  includes prefix2 "+" = false → includes prefix2 ":" = false →
  includes v1 "+" = false → includes v1 ":" = false →
  includes v2 "+" = false → includes v2 ":" = false →
  includes x1 "+" = false → includes x2 "+" = false →
  useSelectedTags pathname = inr (Some v1, Some v2).
Proof.
  intros Hseg Hp1 Hp1' Hp2 Hp2' Hv1 Hv1' Hv2 Hv2' Hx1 Hx2.
  set (a := prefix1 +:+ String ":" (v1 +:+ String ":" x1)).
  set (b := prefix2 +:+ String ":" (v2 +:+ String ":" x2)).
  assert (prefix1 +:+ ":" +:+ v1 +:+ ":" +:+ x1 +:+ "+" +:+
          prefix2 +:+ ":" +:+ v2 +:+ ":" +:+ x2 +:+ "+" +:+ rest
          = a +:+ String "+" (b +:+ String "+" rest)) as Hshape
    by (unfold a, b; reassoc).
  rewrite Hshape in Hseg.
  assert (includes a "+" = false) as Ha.
  { unfold a. rewrite !includes_char_app, !includes_char_cons, includes_char_app,
      !includes_char_cons.
    rewrite !bool_decide_eq_false_2 by done. simpl. by rewrite Hp1, Hv1, Hx1. }
  assert (includes b "+" = false) as Hb.
  { unfold b. rewrite !includes_char_app, !includes_char_cons, includes_char_app,
      !includes_char_cons.
    rewrite !bool_decide_eq_false_2 by done. simpl. by rewrite Hp2, Hv2, Hx2. }
  rewrite (useSelectedTags_segment _ _ a b (split rest "+") Hseg).
  - unfold a, b. by rewrite !split_app.
  - apply includes_plus_app.
  - by rewrite !split_app.
Qed.

(** X8: segments after index 2 do not matter: a pathname that already has
    three segments gives the same pair with any further [/...] put after
    it. *)
Theorem useSelectedTags_ignores_deeper pathname deeper :
  3 ≤ length (split (replace pathname "%20" " ") "/") →
  useSelectedTags (pathname +:+ "/" +:+ deeper) = useSelectedTags pathname.
Proof.
  intros Hlen. apply useSelectedTags_ext.
  change (pathname +:+ "/" +:+ deeper) with (pathname +:+ String "/" deeper).
  destruct (replace_percent20_slash pathname deeper) as (deeper' & ->).
  rewrite split_app_sep. apply lookup_app_l. lia.
Qed.

End SelectedTagsMore.

Lemma useSelectedTags_prefix_unchecked_witness :
  useSelectedTags "/tracks/topic:math+lang:en" = inr (Some "math", Some "en").
Proof.
  apply (useSelectedTags_prefix_unchecked
           "/tracks/topic:math+lang:en" "topic" "lang" "math" "en");
    vm_compute; reflexivity.
Defined.

Lemma useSelectedTags_drops_trailing_witness :
  useSelectedTags "/tracks/lang:en:gb+topic:math:algebra+level:1"
  = inr (Some "en", Some "math").
Proof.
  apply (useSelectedTags_drops_trailing
           "/tracks/lang:en:gb+topic:math:algebra+level:1"
           "lang" "topic" "en" "math" "gb" "algebra" "level:1");
    vm_compute; reflexivity.
Defined.

Lemma useSelectedTags_ignores_deeper_witness :
  useSelectedTags ("/tracks/lang:en+topic:math" +:+ "/" +:+ "page%202")
  = useSelectedTags "/tracks/lang:en+topic:math".
Proof.
  apply (useSelectedTags_ignores_deeper "/tracks/lang:en+topic:math" "page%202").
  vm_compute. lia.
Defined.

(** ** File names and candidate videos *)

Section Candidates.
Implicit Types (md : metadata) (v : video) (dir : gmap string string)
  (files : list string).

Local Ltac reassoc :=
  repeat (rewrite app_assoc_string || rewrite app_String || rewrite app_empty);
  reflexivity.

(** The id read off [before_rest.ext] is [rest]. *)
Lemma file_videoId_between before rest ext :
  includes before "_" = false → includes before "." = false →
  includes rest "." = false →
  file_videoId (before +:+ "_" +:+ rest +:+ "." +:+ ext) = rest.
Proof.
  intros Hb1 Hb2 Hrest. unfold file_videoId.
  assert (before +:+ "_" +:+ rest +:+ "." +:+ ext
          = (before +:+ String "_" rest) +:+ String "." ext) as -> by reassoc.
  rewrite split_app; [simpl|].
  - rewrite split_app by done. simpl. apply join_split.
  - rewrite includes_char_app, includes_char_cons, Hb2, Hrest.
    by rewrite bool_decide_eq_false_2.
Qed.

(** X9: the video id [main] reads off a file name is what stands between
    the first [_] and the first [.] of the name: for [<slug>_<id>.<ext>]
    with no [_] or [.] in the slug and no [.] in the id it is the id (which
    may hold [_]); a [_] in the slug would move the cut. *)
Theorem videoIds_reads_between before rest ext :
  includes before "_" = false → includes before "." = false →
  includes rest "." = false →
  endsWith (before +:+ "_" +:+ rest +:+ "." +:+ ext) "json" = false →
  videoIds [before +:+ "_" +:+ rest +:+ "." +:+ ext] = [rest].
Proof.
  intros Hb1 Hb2 Hrest Hjson. unfold videoIds.
  rewrite filter_cons, Hjson, decide_True by done.
  rewrite filter_nil, list_fmap_singleton.
  by rewrite <- (file_videoId_between before rest ext) at 2.
Qed.

(** X10: a metadata video whose description file [<slug>_<videoId>.txt] is
    in [_descriptions] is a candidate, when its slug holds no [_] or [.]
    and its id no [.]. *)
Theorem videos_with_named_file md dir v :
  v ∈ metadata_videos md →
  is_Some (dir !! (slug v +:+ "_" +:+ videoId v +:+ ".txt")) →
  includes (slug v) "_" = false → includes (slug v) "." = false →
  includes (videoId v) "." = false →
  v ∈ videos md (videoIds (readdirSync dir)).
Proof.
  intros Hv Hfile Hs1 Hs2 Hid. unfold videos.
  apply list_elem_of_filter. split; [|done].
  apply elem_of_videoIds. exists (slug v +:+ "_" +:+ videoId v +:+ ".txt").
  split_and!.
  - by apply elem_of_readdirSync.
  - assert (slug v +:+ "_" +:+ videoId v +:+ ".txt"
            = (slug v +:+ "_" +:+ videoId v) +:+ ".txt") as -> by reassoc.
    apply endsWith_txt_json.
  - symmetry. by apply (file_videoId_between (slug v) (videoId v) "txt").
Qed.

(** Files whose names end in [json] give no id. *)
Lemma videoIds_skips_json files :
  (∀ f, f ∈ files → endsWith f "json" = true) → videoIds files = [].
Proof.
  intros Hjson. destruct (videoIds files) as [|id ids] eqn:Hids; [done|].
  assert (id ∈ videoIds files) as (f & Hf & Hnot & _)%elem_of_videoIds
    by (rewrite Hids; by left).
  rewrite (Hjson f Hf) in Hnot. done.
Qed.

End Candidates.

Lemma videoIds_reads_between_witness :
  videoIds ["walker_a_b.txt"] = ["a_b"].
Proof.
  apply (videoIds_reads_between "walker" "a_b" "txt"); vm_compute; reflexivity.
Defined.

Lemma videos_with_named_file_witness :
  walker ∈ videos sample_metadata
             (videoIds (readdirSync {[ "walker_abc.txt" := "new text" ]})).
Proof.
  apply (videos_with_named_file sample_metadata
           {[ "walker_abc.txt" := "new text" ]} walker).
  - by left.
  - exists "new text". reflexivity.
  - vm_compute; reflexivity.
  - vm_compute; reflexivity.
  - vm_compute; reflexivity.
Defined.

(** ** The track index: which videos can be reached, and in which order *)

Section TracksMore.
Implicit Types (md : metadata) (vids : list video) (v : video) (t mt : track).

Local Abbreviation attach vids mt :=
  {| track_slug := track_slug mt;
     track_title := track_title mt;
     track_videos := filter (λ video, canonicalTrack video = track_slug mt) vids |}.

Local Abbreviation challenges vids :=
  {| track_slug := "challenges";
     track_title := "Coding Challenges";
     track_videos := challengeVideos vids |}.

(** X11: a candidate video is listed under some track exactly when its
    canonical track is the slug of a metadata track or its canonical URL
    starts with [challenges]; any other candidate cannot be selected. *)
Theorem tracks_reachable md vids v :
  v ∈ vids →
  (∃ t, t ∈ tracks md vids ∧ v ∈ track_videos t) ↔
  (∃ mt, mt ∈ metadata_tracks md ∧ canonicalTrack v = track_slug mt) ∨
  startsWith (canonicalURL v) "challenges" = true.
Proof.
  intros Hv. split.
  - intros (t & [(mt & Hmt & -> & _)%elem_of_kept|[-> _]]%elem_of_tracks & Hin);
      simpl in Hin.
    + left. exists mt. by apply list_elem_of_filter in Hin as [? _].
    + right. by apply elem_of_challengeVideos in Hin as [_ ?].
  - intros [(mt & Hmt & Hslug)|Hurl].
    + exists (attach vids mt).
      assert (v ∈ track_videos (attach vids mt)) as Hin
        by (simpl; by apply list_elem_of_filter).
      split; [|done]. apply elem_of_tracks. left. apply elem_of_kept.
      exists mt. split_and!; [done..|].
      intros Hnil. rewrite Hnil in Hin. by apply elem_of_nil in Hin.
    + assert (v ∈ challengeVideos vids) as Hin
        by by apply elem_of_challengeVideos.
      exists (challenges vids). split; [|done].
      apply elem_of_tracks. right. split; [done|].
      intros Hnil. rewrite Hnil in Hin. by apply elem_of_nil in Hin.
Qed.

(** X12: the listed tracks keep the order of the metadata, the synthetic
    track coming last, and the videos of each listed track keep the order
    of the candidates. *)
Theorem tracks_order md vids :
  track_slug <$> tracks md vids
    `sublist_of` (track_slug <$> metadata_tracks md) ++ ["challenges"] ∧
  ∀ t, t ∈ tracks md vids → track_videos t `sublist_of` vids.
Proof.
  split.
  - assert (track_slug <$>
              filter (λ track, 0 < length (track_videos track))
                ((λ track, attach vids track) <$> metadata_tracks md)
            `sublist_of` track_slug <$> metadata_tracks md) as Hkept.
    { etrans; [apply fmap_sublist, sublist_filter|].
      rewrite <- list_fmap_compose. done. }
    destruct (decide (challengeVideos vids = [])) as [Hnil|Hne].
    + rewrite tracks_without_challenges by done. by apply sublist_inserts_r.
    + rewrite tracks_with_challenges, fmap_app by done. by apply sublist_app.
  - intros t [(mt & _ & -> & _)%elem_of_kept|[-> _]]%elem_of_tracks; simpl.
    + apply sublist_filter.
    + unfold challengeVideos. apply sublist_filter.
Qed.

(** With no candidate video no track is listed. *)
Lemma tracks_nil md : tracks md [] = [].
Proof.
  destruct (tracks md []) as [|t ts] eqn:Hts; [done|].
  assert (t ∈ tracks md []) as Ht by (rewrite Hts; by left).
  pose proof (tracks_nonempty _ _ _ Ht) as Hne.
  destruct (track_videos t) as [|v vs] eqn:Hvs; [done|].
  assert (v ∈ @nil video) as Hin; [|by apply elem_of_nil in Hin].
  apply (tracks_videos_candidates md [] t); [done|]. rewrite Hvs. by left.
Qed.

End TracksMore.

Lemma tracks_reachable_witness :
  ∃ t, t ∈ tracks sample_metadata [walker] ∧ walker ∈ track_videos t.
Proof.
  apply (tracks_reachable sample_metadata [walker] walker); [by left|].
  right. reflexivity.
Defined.

(** ** [updateYTDesc]: the shape of a run, and its errors *)

Section UpdateYTDescMore.
Implicit Types (videoId newDescription : string) (service : youtube)
  (video : videoResource) (body : requestBody).

Local Abbreviation request videoId newDescription video :=
  {| body_id := videoId;
     body_snippet :=
       {| snippet_title := snippet_title (resource_snippet video);
          description := newDescription;
          categoryId := categoryId (resource_snippet video) |} |}.

Local Abbreviation no_item_error :=
  "TypeError: Cannot read properties of undefined (reading 'snippet')".

Lemma updateYTDesc_no_item_run videoId newDescription service :
  list_response service videoId = inr [] →
  updateYTDesc videoId newDescription service
  = ([VideosList videoId;
      ConsoleError ("The API returned an error: " +:+ no_item_error)],
     inr ()).
Proof. intros H. unfold updateYTDesc, videos_list. simpl. by rewrite H. Qed.

(** The four runs of [updateYTDesc]. *)
Lemma updateYTDesc_cases videoId newDescription service :
  (∃ err, list_response service videoId = inl err ∧
     updateYTDesc videoId newDescription service
     = ([VideosList videoId;
         ConsoleError ("The API returned an error: " +:+ err)], inr ())) ∨
  (list_response service videoId = inr [] ∧
     updateYTDesc videoId newDescription service
     = ([VideosList videoId;
         ConsoleError ("The API returned an error: " +:+ no_item_error)], inr ())) ∨
  (∃ video rest, list_response service videoId = inr (video :: rest) ∧
     description (resource_snippet video) = newDescription ∧
     updateYTDesc videoId newDescription service
     = ([VideosList videoId; ConsoleLog ["Description is already up to date."]],
        inr ())) ∨
  (∃ video rest, list_response service videoId = inr (video :: rest) ∧
     description (resource_snippet video) ≠ newDescription ∧
     updateYTDesc videoId newDescription service
     = ([VideosList videoId;
         VideosUpdate (request videoId newDescription video);
         match update_response service (request videoId newDescription video) with
         | inl err => ConsoleError ("The API returned an error: " +:+ err)
         | inr _ => ConsoleLog ["Updated video description."]
         end], inr ())).
Proof.
  destruct (list_response service videoId) as [err|[|video rest]] eqn:Hlist.
  - left. exists err. split; [done|]. by apply updateYTDesc_list_fails.
  - right; left. split; [done|]. by apply updateYTDesc_no_item_run.
  - destruct (decide (description (resource_snippet video) = newDescription))
      as [Heq|Hne].
    + right; right; left. exists video, rest. split_and!; [done..|].
      by apply (updateYTDesc_same _ _ _ video rest).
    + right; right; right. exists video, rest. split_and!; [done..|].
      by apply (updateYTDesc_differs _ _ _ video rest).
Qed.

(** X13: [updateYTDesc] never throws: whatever the service answers, errors
    included, it returns. *)
Theorem updateYTDesc_never_throws videoId newDescription service :
  outcome (updateYTDesc videoId newDescription service) = inr ().
Proof.
  destruct (updateYTDesc_cases videoId newDescription service)
    as [(err & _ & ->)|[[_ ->]|[(video & rest & _ & _ & ->)
       |(video & rest & _ & _ & ->)]]]; done.
Qed.

Lemma updateYTDesc_shape videoId newDescription service :
  ∃ line,
    console_event line ∧
    (trace (updateYTDesc videoId newDescription service)
       = [VideosList videoId; line] ∨
     ∃ body,
       body_id body = videoId ∧
       trace (updateYTDesc videoId newDescription service)
       = [VideosList videoId; VideosUpdate body; line]).
Proof.
  destruct (updateYTDesc_cases videoId newDescription service)
    as [(err & _ & ->)|[[_ ->]|[(video & rest & _ & _ & ->)
       |(video & rest & _ & _ & ->)]]]; simpl.
  - eexists. split; [|by left]. done.
  - eexists. split; [|by left]. done.
  - eexists. split; [|by left]. done.
  - eexists. split; [|right; eexists; split; [|reflexivity]; done].
    by destruct (update_response _ _).
Qed.

(** X14: a run of [updateYTDesc] is the fetch of the video, then at most one
    update call, for that video, then one line on the console. *)
Theorem updateYTDesc_run_shape videoId newDescription service :
  ∃ line,
    console_event line ∧
    (trace (updateYTDesc videoId newDescription service)
       = [VideosList videoId; line] ∨
     ∃ body,
       body_id body = videoId ∧
       trace (updateYTDesc videoId newDescription service)
       = [VideosList videoId; VideosUpdate body; line]).
Proof.
  destruct (updateYTDesc_shape videoId newDescription service)
    as (line & Hline & Hshape).
  exists line. by split.
Qed.

(** X15: [Updated video description.] is printed exactly when the fetched
    description differs from the new one and the update call succeeds. *)
Theorem updateYTDesc_reports_update videoId newDescription service :
  ConsoleLog ["Updated video description."]
    ∈ trace (updateYTDesc videoId newDescription service) ↔
  ∃ video rest,
    list_response service videoId = inr (video :: rest) ∧
    description (resource_snippet video) ≠ newDescription ∧
    update_response service
      {| body_id := videoId;
         body_snippet :=
           {| snippet_title := snippet_title (resource_snippet video);
              description := newDescription;
              categoryId := categoryId (resource_snippet video) |} |}
    = inr ().
Proof.
  split.
  - destruct (updateYTDesc_cases videoId newDescription service)
      as [(err & _ & ->)|[[_ ->]|[(video & rest & _ & _ & ->)
         |(video & rest & Hlist & Hne & ->)]]]; simpl; intros H.
    + repeat (apply elem_of_cons in H as [?|H]; [done|]). by apply elem_of_nil in H.
    + repeat (apply elem_of_cons in H as [?|H]; [done|]). by apply elem_of_nil in H.
    + repeat (apply elem_of_cons in H as [?|H]; [done|]). by apply elem_of_nil in H.
    + exists video, rest. split_and!; [done..|].
      destruct (update_response _ _) as [err|[]]; [|done].
      repeat (apply elem_of_cons in H as [?|H]; [done|]). by apply elem_of_nil in H.
  - intros (video & rest & Hlist & Hne & Hupdate).
    rewrite (updateYTDesc_differs _ _ _ video rest Hlist Hne), Hupdate. simpl.
    do 2 right. by left.
Qed.

(** X16: every failure is reported by [console.error] with the prefix
    [The API returned an error: ], and nothing else is: the line is printed
    exactly for a failed fetch, a fetch without item, or a failed update. *)
Theorem updateYTDesc_reports_errors videoId newDescription service msg :
  ConsoleError msg ∈ trace (updateYTDesc videoId newDescription service) ↔
  ∃ err,
    msg = "The API returned an error: " +:+ err ∧
    (list_response service videoId = inl err ∨
     (list_response service videoId = inr [] ∧
      err = "TypeError: Cannot read properties of undefined (reading 'snippet')") ∨
     ∃ video rest,
       list_response service videoId = inr (video :: rest) ∧
       description (resource_snippet video) ≠ newDescription ∧
       update_response service
         {| body_id := videoId;
            body_snippet :=
              {| snippet_title := snippet_title (resource_snippet video);
                 description := newDescription;
                 categoryId := categoryId (resource_snippet video) |} |}
       = inl err).
Proof.
  split.
  - destruct (updateYTDesc_cases videoId newDescription service)
      as [(err & Hlist & ->)|[[Hlist ->]|[(video & rest & _ & _ & ->)
         |(video & rest & Hlist & Hne & ->)]]]; simpl; intros H.
    + apply elem_of_cons in H as [?|H]; [done|].
      apply list_elem_of_singleton in H as [= ->]. exists err. by auto.
    + apply elem_of_cons in H as [?|H]; [done|].
      apply list_elem_of_singleton in H as [= ->]. eexists. by eauto.
    + repeat (apply elem_of_cons in H as [?|H]; [done|]). by apply elem_of_nil in H.
    + do 2 (apply elem_of_cons in H as [?|H]; [done|]).
      apply list_elem_of_singleton in H.
      destruct (update_response _ _) as [err|[]] eqn:Hupdate; [|done].
      injection H as ->. exists err. split; [done|]. do 2 right. by eauto.
  - intros (err & -> & [Hlist|[[Hlist ->]|(video & rest & Hlist & Hne & Hupdate)]]).
    + rewrite (updateYTDesc_list_fails _ _ _ _ Hlist). simpl. right. by left.
    + rewrite (updateYTDesc_no_item_run _ _ _ Hlist). simpl. right. by left.
    + rewrite (updateYTDesc_differs _ _ _ video rest Hlist Hne), Hupdate. simpl.
      do 2 right. by left.
Qed.

(** The calls of a run of [updateYTDesc] are for its video. *)
Lemma updateYTDesc_calls_for_video videoId newDescription service e :
  e ∈ trace (updateYTDesc videoId newDescription service) →
  remote_call e →
  e = VideosList videoId ∨
  ∃ body, e = VideosUpdate body ∧ body_id body = videoId ∧
          description (body_snippet body) = newDescription.
Proof.
  destruct (updateYTDesc_cases videoId newDescription service)
    as [(err & _ & ->)|[[_ ->]|[(video & rest & _ & _ & ->)
       |(video & rest & _ & _ & ->)]]]; simpl; intros H Hremote.
  - apply elem_of_cons in H as [->|H]; [by left|].
    apply list_elem_of_singleton in H as ->. done.
  - apply elem_of_cons in H as [->|H]; [by left|].
    apply list_elem_of_singleton in H as ->. done.
  - apply elem_of_cons in H as [->|H]; [by left|].
    apply list_elem_of_singleton in H as ->. done.
  - apply elem_of_cons in H as [->|H]; [by left|].
    apply elem_of_cons in H as [->|H]; [right; by eauto|].
    apply list_elem_of_singleton in H as ->.
    by destruct (update_response _ _).
Qed.

End UpdateYTDescMore.

(** ** [authorize], [getNewToken], [storeToken] *)

Section Authorize.
Implicit Types (w : world) (creds : credentials) (tok : token) (e : event).

(** The first three events of [getNewToken]. *)
Local Abbreviation asking w :=
  [ConsoleLog ["Authorize this app by visiting this url: "; authUrl w];
   Question "Enter the code from that page here: ";
   GetToken (enteredCode w)].

(** The runs of [authorize]. *)
Lemma authorize_cases w creds :
  (∃ tok, tokenFile w = Parsed tok ∧ authorize w creds = ([], inr tok)) ∨
  ((∀ t, tokenFile w ≠ Parsed t) ∧
   ((∃ err, tokenExchange w (enteredCode w) = inl err ∧
       authorize w creds
       = (asking w ++
            [ConsoleLog ["Error while trying to retrieve access token"; err]],
          inl "undefined")) ∨
    (∃ tok err, tokenExchange w (enteredCode w) = inr tok ∧
       (mkdirError w = Some err ∨
        (mkdirError w = None ∧ storeTokenError w = Some err)) ∧
       authorize w creds = (asking w, inl err)) ∨
    (∃ tok, tokenExchange w (enteredCode w) = inr tok ∧
       mkdirError w = None ∧
       storeTokenError w = None ∧
       authorize w creds
       = (asking w ++
            [StoreToken "google-credentials/credentials.json" tok;
             ConsoleLog ["Token stored to google-credentials/credentials.json"]],
          inr tok)))).
Proof.
  unfold authorize, getNewToken, storeToken.
  destruct (tokenFile w) as [e1|e1|tok] eqn:Hfile; [right|right|left; by eauto].
  all: split; [done|].
  all: destruct (tokenExchange w (enteredCode w)) as [err|tok] eqn:Hex; simpl;
    [left; by eauto|right].
  all: destruct (mkdirError w) as [err|] eqn:Hmkdir; simpl;
    [left; exists tok, err; split_and!; [done|by left|done]|].
  all: destruct (storeTokenError w) as [err|] eqn:Hstore; simpl;
    [left; exists tok, err; split_and!; [done|by right|done]
    |right; exists tok; by split_and!].
Qed.

(** X17: [authorize] returns a token exactly when one is stored, which it
    returns, or when the code exchange gives one and neither making the
    directory nor writing the file fails. *)
Theorem authorize_token_origin w creds tok :
  outcome (authorize w creds) = inr tok ↔
  tokenFile w = Parsed tok ∨
  ((∀ t, tokenFile w ≠ Parsed t) ∧
   tokenExchange w (enteredCode w) = inr tok ∧
   mkdirError w = None ∧
   storeTokenError w = None).
Proof.
  destruct (authorize_cases w creds)
    as [(tok' & Hfile & ->)|[Hno [(err & Hex & ->)|[(tok' & err & Hex & Hst & ->)
       |(tok' & Hex & Hmk & Hst & ->)]]]]; simpl; split.
  - intros [= ->]. by left.
  - intros [Hfile'|(Hno & _)]; [congruence|]. by destruct (Hno tok').
  - done.
  - intros [Hfile|(_ & Hex' & _)]; [by destruct (Hno tok)|congruence].
  - done.
  - intros [Hfile|(_ & _ & Hmk & Hst')]; [by destruct (Hno tok)|].
    destruct Hst as [?|[_ ?]]; congruence.
  - intros [= ->]. right. done.
  - intros [Hfile|(_ & Hex' & _)]; [by destruct (Hno tok)|congruence].
Qed.

(** X18: a token is written exactly when none is stored, the code exchange
    succeeds, and neither making the directory nor writing the file fails;
    it is written to [google-credentials/credentials.json] and it is the
    token of the exchange. *)
Theorem authorize_stores_exchanged_token w creds path tok :
  StoreToken path tok ∈ trace (authorize w creds) ↔
  path = "google-credentials/credentials.json" ∧
  (∀ t, tokenFile w ≠ Parsed t) ∧
  tokenExchange w (enteredCode w) = inr tok ∧
  mkdirError w = None ∧
  storeTokenError w = None.
Proof.
  destruct (authorize_cases w creds)
    as [(tok' & Hfile & ->)|[Hno [(err & Hex & ->)|[(tok' & err & Hex & Hst & ->)
       |(tok' & Hex & Hmk & Hst & ->)]]]]; simpl; split.
  - intros H. by apply elem_of_nil in H.
  - intros (_ & Hno & _). by destruct (Hno tok').
  - intros H. repeat (apply elem_of_cons in H as [?|H]; [done|]).
    by apply elem_of_nil in H.
  - intros (_ & _ & Hex' & _). congruence.
  - intros H. repeat (apply elem_of_cons in H as [?|H]; [done|]).
    by apply elem_of_nil in H.
  - intros (_ & _ & _ & Hmk & Hst'). destruct Hst as [?|[_ ?]]; congruence.
  - intros H. do 3 (apply elem_of_cons in H as [?|H]; [done|]).
    apply elem_of_cons in H as [[= -> ->]|H]; [done|].
    by apply list_elem_of_singleton in H.
  - intros (-> & _ & Hex' & _). assert (tok = tok') as -> by congruence.
    do 3 right. by left.
Qed.

(** X19: with a stored token [authorize] does nothing that can be seen;
    without one it prints the URL, asks for the code and exchanges the code
    typed, in this order, before anything else. *)
Theorem authorize_asks_when_no_token w creds :
  (∀ tok, tokenFile w = Parsed tok → authorize w creds = ([], inr tok)) ∧
  ((∀ t, tokenFile w ≠ Parsed t) →
   ∃ rest,
     trace (authorize w creds)
     = [ConsoleLog ["Authorize this app by visiting this url: "; authUrl w];
        Question "Enter the code from that page here: ";
        GetToken (enteredCode w)] ++ rest ∧
     ∀ e, e ∈ rest → ∀ q code, e ≠ Question q ∧ e ≠ GetToken code).
Proof.
  destruct (authorize_cases w creds)
    as [(tok' & Hfile & ->)|[Hno [(err & Hex & ->)|[(tok' & err & Hex & Hst & ->)
       |(tok' & Hex & Hmk & Hst & ->)]]]]; split.
  - intros tok Hfile'. congruence.
  - intros Hno. by destruct (Hno tok').
  - intros tok Hfile. by destruct (Hno tok).
  - intros _. eexists. split; [reflexivity|]. intros e He q code.
    apply list_elem_of_singleton in He as ->. done.
  - intros tok Hfile. by destruct (Hno tok).
  - intros _. exists []. split; [by rewrite app_nil_r|]. intros e He.
    by apply elem_of_nil in He.
  - intros tok Hfile. by destruct (Hno tok).
  - intros _. eexists. split; [reflexivity|]. intros e He q code.
    apply elem_of_cons in He as [->|He]; [done|].
    apply list_elem_of_singleton in He as ->. done.
Qed.

(** X20: when no token is stored and the code exchange fails, [main] prints
    the failure and is rejected: nothing is stored, nothing is prompted,
    the video API is not called. *)
Theorem main_aborts_on_failed_exchange w content err :
  clientSecretFile w = Parsed content →
  (∀ t, tokenFile w ≠ Parsed t) →
  tokenExchange w (enteredCode w) = inl err →
  main w
  = ([ConsoleLog ["Authorize this app by visiting this url: "; authUrl w];
      Question "Enter the code from that page here: ";
      GetToken (enteredCode w);
      ConsoleLog ["Error while trying to retrieve access token"; err]],
     inl "undefined").
Proof.
  intros Hsecret Hno Hex. unfold main. rewrite Hsecret.
  destruct (authorize_cases w content)
    as [(tok' & Hfile & _)|[_ [(err' & Hex' & ->)|[(tok' & ? & Hex' & _)
       |(tok' & Hex' & _)]]]]; [by destruct (Hno tok')| |congruence..].
  assert (err' = err) as -> by congruence. done.
Qed.

End Authorize.

Lemma main_aborts_on_failed_exchange_witness :
  main (no_token_world (inl "invalid_grant"))
  = ([ConsoleLog ["Authorize this app by visiting this url: ";
                  "https://accounts.google.com/o/oauth2/v2/auth"];
      Question "Enter the code from that page here: ";
      GetToken "4/0Ab";
      ConsoleLog ["Error while trying to retrieve access token"; "invalid_grant"]],
     inl "undefined").
Proof.
  apply (main_aborts_on_failed_exchange
           (no_token_world (inl "invalid_grant")) "client secret" "invalid_grant");
    [reflexivity|discriminate|reflexivity].
Defined.

(** ** [main]: what a run calls, and when *)

(** Unfolds the monad of the script where the computation is known. *)
Ltac run :=
  cbv beta iota zeta delta [bind emit ret throw trace outcome console_log
                            undefined_property fst snd mbind option_bind].

(** Closes a run of [main] that ends before the video API is called. *)
Ltac stop Hquiet Hremote :=
  let H := fresh "H" in
  run; rewrite ?app_nil_r; intros H;
  repeat (apply elem_of_app in H as [H|H] || apply elem_of_cons in H as [H|H]);
  solve [ by destruct (Hquiet H) | by apply elem_of_nil in H
        | subst; by simpl in Hremote ].

(** Where a call of the video API in the trace of [main] comes from, and
    what the trace then is. *)
Lemma main_remote_call_inv w e :
  remote_call e → e ∈ trace (main w) →
  ∃ content tok dir text md t v newDescription,
    clientSecretFile w = Parsed content ∧
    outcome (authorize w content) = inr tok ∧
    descriptions w = Some dir ∧
    dir !! "metadata.json" = Some text ∧
    parseMetadata w text = inr md ∧
    t ∈ tracks md (videos md (videoIds (readdirSync dir))) ∧
    v ∈ track_videos t ∧
    dir !! (slug v +:+ "_" +:+ videoId v +:+ ".txt") = Some newDescription ∧
    trace (main w)
    = trace (authorize w content) ++
      [Prompt "trackSlug" "Select a track to update:"
         ((λ track, {| name := track_title track; value := track_slug track |})
            <$> tracks md (videos md (videoIds (readdirSync dir))));
       Prompt "videoId" "Select a video to update:"
         ((λ video, {| name := title video +:+ " (" +:+ videoId video +:+ ")";
                       value := videoId video |}) <$> track_videos t);
       ConsoleLog ["Updating description for video..."; title v;
                   "(" +:+ videoId v +:+ ")"]] ++
      trace (updateYTDesc (videoId v) newDescription (service w)) ∧
    e ∈ trace (updateYTDesc (videoId v) newDescription (service w)).
Proof.
  intros Hremote. unfold main.
  destruct (clientSecretFile w) as [err|err|content] eqn:Hsecret.
  1: simpl; intros ->%list_elem_of_singleton; done.
  1: simpl; intros H; by apply elem_of_nil in H.
  assert (∀ tra r, authorize w content = (tra, r) → e ∈ tra → False) as Hquiet.
  { intros tra r Hauth Hin.
    assert (e ∈ trace (authorize w content)) as Hq by (by rewrite Hauth).
    apply authorize_quiet in Hq as [_ Hq]. done. }
  destruct (authorize w content) as [tra [erra|tok]] eqn:Hauth.
  { simpl. intros H. by destruct (Hquiet _ _ eq_refl H). }
  specialize (Hquiet _ _ eq_refl).
  unfold readFileSync, prompt.
  destruct (descriptions w) as [dir|] eqn:Hdir; [|stop Hquiet Hremote].
  case_decide as Hlen; [stop Hquiet Hremote|].
  run. destruct (dir !! "metadata.json") as [text|] eqn:Htext; [|stop Hquiet Hremote].
  run. destruct (parseMetadata w text) as [err|md] eqn:Hmd; [stop Hquiet Hremote|].
  run. destruct (_ !! pick w "trackSlug" _) as [c1|] eqn:Hc1; [|stop Hquiet Hremote].
  run. destruct (list_find _ (tracks _ _)) as [[i t]|] eqn:Ht; [|stop Hquiet Hremote].
  run. destruct (_ !! pick w "videoId" _) as [c2|] eqn:Hc2; [|stop Hquiet Hremote].
  run. destruct (list_find _ (track_videos t)) as [[j v]|] eqn:Hv; [|stop Hquiet Hremote].
  run. destruct (dir !! (slug v +:+ "_" +:+ videoId v +:+ ".txt"))
    as [newDescription|] eqn:Hnew; [|stop Hquiet Hremote].
  run. destruct (updateYTDesc (videoId v) newDescription (service w))
    as [tru ru] eqn:Hupd.
  run. cbn [app]. intros H.
  apply elem_of_app in H as [H|H]; [by destruct (Hquiet H)|].
  do 3 (apply elem_of_cons in H as [H|H]; [subst; by simpl in Hremote|]).
  apply list_find_Some in Ht as (Ht & _ & _).
  apply list_find_Some in Hv as (Hv & _ & _).
  exists content, tok, dir, text, md, t, v, newDescription.
  rewrite Hauth, Hupd.
  split_and!; try done.
  - by eapply list_elem_of_lookup_2.
  - by eapply list_elem_of_lookup_2.
Qed.

Section MainMore.
Implicit Types (w : world) (e : event) (dir : gmap string string)
  (md : metadata) (v : video) (t : track).

Lemma readdirSync_nil dir : readdirSync dir = [] ↔ dir = ∅.
Proof.
  unfold readdirSync. rewrite <- map_to_list_empty_iff. split.
  - apply fmap_nil_inv.
  - by intros ->.
Qed.

(** X21: [main] never makes up a description: the description of an update
    call is the text of the file [<slug>_<videoId>.txt] of a video of the
    metadata, and the call is for that video. *)
Theorem main_update_from_file w body :
  VideosUpdate body ∈ trace (main w) →
  ∃ dir text md v,
    descriptions w = Some dir ∧
    dir !! "metadata.json" = Some text ∧
    parseMetadata w text = inr md ∧
    v ∈ metadata_videos md ∧
    body_id body = videoId v ∧
    dir !! (slug v +:+ "_" +:+ videoId v +:+ ".txt")
      = Some (description (body_snippet body)).
Proof.
  intros H. apply main_remote_call_inv in H
    as (content & tok & dir & text & md & t & v & newDescription & _ & _ & Hdir
        & Htext & Hmd & Ht & Hv & Hnew & _ & H); [|done].
  apply updateYTDesc_calls_for_video in H as [?|(body' & [= <-] & Hid & Hdesc)];
    [done| |done].
  exists dir, text, md, v. split_and!; [done..| |done|by rewrite Hdesc].
  pose proof (tracks_videos_candidates _ _ _ _ Ht Hv) as Hcand.
  unfold videos in Hcand. by apply list_elem_of_filter in Hcand as [_ ?].
Qed.

(** X22: the video API is called only after the track prompt and the video
    prompt, and only for a video that the video prompt listed. *)
Theorem main_calls_after_prompts w e :
  remote_call e →
  e ∈ trace (main w) →
  ∃ before tracks_offered videos_offered line after,
    trace (main w)
    = before ++
      [Prompt "trackSlug" "Select a track to update:" tracks_offered;
       Prompt "videoId" "Select a video to update:" videos_offered;
       line] ++ after ∧
    (∀ e', e' ∈ before → ¬ remote_call e') ∧
    console_event line ∧
    ∀ e', e' ∈ after → remote_call e' →
          ∃ c, c ∈ videos_offered ∧
               (e' = VideosList (value c) ∨
                ∃ body, e' = VideosUpdate body ∧ body_id body = value c).
Proof.
  intros Hremote H. apply main_remote_call_inv in H
    as (content & tok & dir & text & md & t & v & newDescription & _ & _ & _
        & _ & _ & _ & Hv & _ & Htrace & _); [|done].
  eexists _, _, _, _, _. split; [exact Htrace|]. split_and!; [|done|].
  - intros e' He'. by apply authorize_quiet in He' as [_ ?].
  - intros e' He' Hremote'.
    eexists {| name := _; value := videoId v |}. split.
    + apply list_elem_of_fmap. by exists v.
    + simpl.
      apply updateYTDesc_calls_for_video in He'
        as [?|(body & -> & Hid & _)]; [by left|by eauto|done].
Qed.

(** X23: the video prompt shows the videos of the first track of the list
    whose slug is the value of the entry picked in the track prompt: when
    several tracks bear that slug, the later ones are never shown. *)
Theorem main_video_prompt_first_track w message choices :
  Prompt "videoId" message choices ∈ trace (main w) →
  ∃ dir text md picked i t,
    descriptions w = Some dir ∧
    dir !! "metadata.json" = Some text ∧
    parseMetadata w text = inr md ∧
    ((λ track, {| name := track_title track; value := track_slug track |})
       <$> tracks md (videos md (videoIds (readdirSync dir))))
      !! pick w "trackSlug"
           ((λ track, {| name := track_title track; value := track_slug track |})
              <$> tracks md (videos md (videoIds (readdirSync dir))))
      = Some picked ∧
    tracks md (videos md (videoIds (readdirSync dir))) !! i = Some t ∧
    track_slug t = value picked ∧
    (∀ j t', j < i →
       tracks md (videos md (videoIds (readdirSync dir))) !! j = Some t' →
       track_slug t' ≠ value picked) ∧
    choices
    = (λ video, {| name := title video +:+ " (" +:+ videoId video +:+ ")";
                   value := videoId video |}) <$> track_videos t.
Proof.
  unfold main. destruct (clientSecretFile w) as [err|err|content].
  - intros H. apply list_elem_of_singleton in H. done.
  - intros H. by apply elem_of_nil in H.
  - intros [H|(auth & _ & H)]%elem_of_trace_bind.
    { apply authorize_quiet in H as [H _]. by destruct H. }
    destruct (descriptions w) as [dir|] eqn:Hdir;
      [|by apply list_elem_of_singleton in H].
    case_decide; [by apply list_elem_of_singleton in H|].
    apply elem_of_trace_bind in H as [H|(text & Htext & H)];
      [by rewrite trace_readFileSync in H; apply elem_of_nil in H|].
    apply elem_of_trace_bind in H as [H|(md & Hmd & H)];
      [by destruct (parseMetadata w text); apply elem_of_nil in H|].
    apply elem_of_trace_bind in H as [H|(trackSlug & Hpicked & H)];
      [by apply elem_of_trace_prompt in H|].
    apply outcome_prompt in Hpicked as (picked & Hpicked & <-).
    apply elem_of_trace_bind in H as [H|(t & Ht & H)];
      [by destruct (list_find _ _) as [[? ?]|]; apply elem_of_nil in H|].
    destruct (list_find _ _) as [[i t']|] eqn:Hfind; [|done].
    injection Ht as ->. apply list_find_Some in Hfind as (Hi & Hslug & Hfirst).
    exists dir, text, md, picked, i, t.
    assert (dir !! "metadata.json" = Some text) as Htext'.
    { unfold readFileSync in Htext. rewrite Hdir in Htext. simpl in Htext.
      destruct (dir !! "metadata.json"); [|done]. by injection Htext as ->. }
    assert (parseMetadata w text = inr md) as Hmd'.
    { destruct (parseMetadata w text); [done|]. by injection Hmd as ->. }
    split_and!; [done..| |].
    { intros j t'' Hj Ht''. by apply (Hfirst j). }
    apply elem_of_trace_bind in H as [H|(videoId' & _ & H)];
      [apply elem_of_trace_prompt in H; congruence|].
    apply elem_of_trace_bind in H as [H|(v & _ & H)];
      [by destruct (list_find _ _) as [[? ?]|]; apply elem_of_nil in H|].
    apply elem_of_trace_bind in H as [H|(_ & _ & H)];
      [by apply list_elem_of_singleton in H|].
    apply elem_of_trace_bind in H as [H|(newDescription & _ & H)];
      [by rewrite trace_readFileSync in H; apply elem_of_nil in H|].
    apply updateYTDesc_no_prompt in H. by destruct H.
Qed.

Lemma videos_nil md : videos md [] = [].
Proof.
  unfold videos. destruct (filter _ _) as [|v vs] eqn:Hf; [done|].
  assert (v ∈ filter (λ x, videoId x ∈ @nil string) (metadata_videos md))
    as [Hin _]%list_elem_of_filter by (rewrite Hf; by left).
  by apply elem_of_nil in Hin.
Qed.

(** X24: when [_descriptions] has entries but [metadata.json] is missing or
    cannot be parsed, [main] is rejected with that error right after the
    authorization, before any prompt: the guard on the directory does not
    cover it. *)
Theorem main_metadata_unreadable w content tok dir :
  clientSecretFile w = Parsed content →
  outcome (authorize w content) = inr tok →
  descriptions w = Some dir →
  dir ≠ ∅ →
  (dir !! "metadata.json" = None →
   main w
   = (trace (authorize w content),
      inl "Error: ENOENT: no such file or directory, open '_descriptions/metadata.json'")) ∧
  (∀ text err,
     dir !! "metadata.json" = Some text →
     parseMetadata w text = inl err →
     main w = (trace (authorize w content), inl err)).
Proof.
  intros Hsecret Hauth Hdir Hne.
  assert (length (readdirSync dir) ≠ 0) as Hlen.
  { intros Hlen. apply Hne, readdirSync_nil. by destruct (readdirSync dir). }
  unfold main, readFileSync. rewrite Hsecret, Hdir.
  destruct (authorize w content) as [tra [erra|tok']]; [done|].
  rewrite decide_False by done. split.
  - intros Htext. run. rewrite Htext. run. by rewrite !app_nil_r.
  - intros text err Htext Hmd. run. rewrite Htext. run. rewrite Hmd.
    by rewrite !app_nil_r.
Qed.

Lemma remote_call_split (tr : list event) :
  (∀ e, e ∈ tr → ¬ remote_call e) ∨ ∃ e, e ∈ tr ∧ remote_call e.
Proof.
  induction tr as [|e tr [IH|(e' & He' & Hr)]].
  - left. intros e He. by apply elem_of_nil in He.
  - assert (remote_call e ∨ ¬ remote_call e) as [Hr|Hr]
      by (destruct e; simpl; tauto).
    + right. exists e. split; [by left|done].
    + left. intros e' [->|He']%elem_of_cons; [done|by apply IH].
  - right. exists e'. split; [by right|done].
Qed.

(** X25: a run of [main] calls the video API for at most one video: one
    fetch, then at most one update, then one console line, and these are the
    last events of the run. *)
Theorem main_at_most_one_update w :
  ∃ before after,
    trace (main w) = before ++ after ∧
    (∀ e, e ∈ before → ¬ remote_call e) ∧
    (after = [] ∨
     ∃ id line,
       console_event line ∧
       (after = [VideosList id; line] ∨
        ∃ body, body_id body = id ∧
                after = [VideosList id; VideosUpdate body; line])).
Proof.
  destruct (remote_call_split (trace (main w))) as [Hnone|(e & He & Hremote)].
  - exists (trace (main w)), []. rewrite app_nil_r. by auto.
  - apply main_remote_call_inv in He
      as (content & tok & dir & text & md & t & v & newDescription & _ & _ & _
          & _ & _ & _ & _ & _ & Htrace & _); [|done].
    rewrite app_assoc in Htrace. eexists _, _. split; [exact Htrace|]. split.
    + intros e' [He'|He']%elem_of_app.
      * by apply authorize_quiet in He' as [_ ?].
      * repeat (apply elem_of_cons in He' as [->|He']; [by auto|]).
        by apply elem_of_nil in He'.
    + right. exists (videoId v).
      destruct (updateYTDesc_shape (videoId v) newDescription (service w))
        as (line & Hline & Hshape).
      exists line. split; [done|]. exact Hshape.
Qed.

(** X26: when every file of [_descriptions] has a name ending in [json]
    (only [metadata.json], say), the track prompt of [main] has no entry. *)
Theorem main_json_only_empty_prompt w dir message choices :
  descriptions w = Some dir →
  (∀ f, is_Some (dir !! f) → endsWith f "json" = true) →
  Prompt "trackSlug" message choices ∈ trace (main w) →
  choices = [].
Proof.
  intros Hdir Hjson (dir' & md & Hdir' & ->)%main_track_prompt_inv.
  assert (dir' = dir) as -> by congruence.
  rewrite videoIds_skips_json, videos_nil, tracks_nil; [done|].
  intros f Hf. by apply Hjson, elem_of_readdirSync.
Qed.

End MainMore.

Lemma working_world_trace :
  trace (main working_world)
  = [Prompt "trackSlug" "Select a track to update:"
       [ {| name := "p5.js"; value := "p5" |};
         {| name := "Coding Challenges"; value := "challenges" |} ];
     Prompt "videoId" "Select a video to update:"
       [ {| name := "Random Walker (abc)"; value := "abc" |} ];
     ConsoleLog ["Updating description for video..."; "Random Walker"; "(abc)"];
     VideosList "abc";
     VideosUpdate walker_update;
     ConsoleLog ["Updated video description."]].
Proof. vm_compute. reflexivity. Qed.

Lemma main_update_from_file_witness :
  ∃ dir text md v,
    descriptions working_world = Some dir ∧
    dir !! "metadata.json" = Some text ∧
    parseMetadata working_world text = inr md ∧
    v ∈ metadata_videos md ∧
    body_id walker_update = videoId v ∧
    dir !! (slug v +:+ "_" +:+ videoId v +:+ ".txt")
      = Some (description (body_snippet walker_update)).
Proof.
  apply (main_update_from_file working_world walker_update).
  rewrite working_world_trace. do 4 apply list_elem_of_further.
  apply list_elem_of_here.
Defined.

Lemma main_calls_after_prompts_witness :
  ∃ before tracks_offered videos_offered line after,
    trace (main working_world)
    = before ++
      [Prompt "trackSlug" "Select a track to update:" tracks_offered;
       Prompt "videoId" "Select a video to update:" videos_offered;
       line] ++ after ∧
    (∀ e', e' ∈ before → ¬ remote_call e') ∧
    console_event line ∧
    ∀ e', e' ∈ after → remote_call e' →
          ∃ c, c ∈ videos_offered ∧
               (e' = VideosList (value c) ∨
                ∃ body, e' = VideosUpdate body ∧ body_id body = value c).
Proof.
  apply (main_calls_after_prompts working_world (VideosList "abc")); [exact I|].
  rewrite working_world_trace. do 3 apply list_elem_of_further.
  apply list_elem_of_here.
Defined.

Lemma main_video_prompt_first_track_witness :
  ∃ dir text md picked i t,
    descriptions (clash_world 2) = Some dir ∧
    dir !! "metadata.json" = Some text ∧
    parseMetadata (clash_world 2) text = inr md ∧
    ((λ track, {| name := track_title track; value := track_slug track |})
       <$> tracks md (videos md (videoIds (readdirSync dir))))
      !! pick (clash_world 2) "trackSlug"
           ((λ track, {| name := track_title track; value := track_slug track |})
              <$> tracks md (videos md (videoIds (readdirSync dir))))
      = Some picked ∧
    tracks md (videos md (videoIds (readdirSync dir))) !! i = Some t ∧
    track_slug t = value picked ∧
    (∀ j t', j < i →
       tracks md (videos md (videoIds (readdirSync dir))) !! j = Some t' →
       track_slug t' ≠ value picked) ∧
    [ {| name := "Maze Generator (xyz)"; value := "xyz" |} ]
    = (λ video, {| name := title video +:+ " (" +:+ videoId video +:+ ")";
                   value := videoId video |}) <$> track_videos t.
Proof.
  apply (main_video_prompt_first_track (clash_world 2) "Select a video to update:").
  assert (∃ first rest,
            trace (main (clash_world 2))
            = first
                :: Prompt "videoId" "Select a video to update:"
                     [ {| name := "Maze Generator (xyz)"; value := "xyz" |} ]
                :: rest) as (first & rest & ->)
    by (eexists _, _; vm_compute; reflexivity).
  apply list_elem_of_further, list_elem_of_here.
Defined.

Lemma main_metadata_unreadable_witness :
  main no_metadata_world
  = ([], inl "Error: ENOENT: no such file or directory, open '_descriptions/metadata.json'").
Proof.
  destruct (main_metadata_unreadable no_metadata_world "client secret" "token"
              {[ "walker_abc.txt" := "new text" ]}) as [Hmissing _];
    [reflexivity|reflexivity|reflexivity|apply map_non_empty_singleton|].
  apply Hmissing. reflexivity.
Defined.

Lemma main_json_only_empty_prompt_witness :
  Prompt "trackSlug" "Select a track to update:" []
    ∈ trace (main metadata_only_world) ∧
  @nil choice = [].
Proof.
  assert (Prompt "trackSlug" "Select a track to update:" []
            ∈ trace (main metadata_only_world)) as Hprompt
    by (vm_compute; apply list_elem_of_here).
  split; [exact Hprompt|].
  apply (main_json_only_empty_prompt metadata_only_world
           {[ "metadata.json" := "{}" ]} "Select a track to update:" []);
    [reflexivity| |exact Hprompt].
  intros f [text Hf]. apply lookup_singleton_Some in Hf as [<- _].
  vm_compute. reflexivity.
Defined.

(** ** Two more compositions *)

Section Compositions.
Implicit Types (md : metadata) (vids : list video) (service : youtube).

(** X27: the videos a metadata track lists beforehand play no part: [main]
    replaces them by the candidate videos of the track's slug. *)
Theorem tracks_overwrites_listed_videos md md' vids :
  (λ t, (track_slug t, track_title t)) <$> metadata_tracks md'
    = (λ t, (track_slug t, track_title t)) <$> metadata_tracks md →
  tracks md' vids = tracks md vids.
Proof.
  intros Hsame. unfold tracks. f_equal.
  assert (∀ l l' : list track,
            (λ t, (track_slug t, track_title t)) <$> l'
              = (λ t, (track_slug t, track_title t)) <$> l →
            (λ track,
               {| track_slug := track_slug track;
                  track_title := track_title track;
                  track_videos :=
                    filter (λ video, canonicalTrack video = track_slug track) vids |})
              <$> l'
            = (λ track,
               {| track_slug := track_slug track;
                  track_title := track_title track;
                  track_videos :=
                    filter (λ video, canonicalTrack video = track_slug track) vids |})
              <$> l) as Hmap.
  { intros l. induction l as [|t l IH]; intros [|t' l'] Hl; simpl in *;
      [done|done|done|].
    injection Hl as Hslug Htitle Hl. rewrite Hslug, Htitle. f_equal. by apply IH. }
  destruct (decide (0 < length (challengeVideos vids)));
    by rewrite (Hmap _ _ Hsame).
Qed.

(** X28: once the video carries the snippet that [updateYTDesc] sent, a
    second run with the same description finds it up to date and sends
    nothing. *)
Theorem updateYTDesc_second_run videoId newDescription service service' body rest :
  VideosUpdate body ∈ trace (updateYTDesc videoId newDescription service) →
  list_response service' videoId
    = inr ({| resource_snippet := body_snippet body |} :: rest) →
  updateYTDesc videoId newDescription service'
  = ([VideosList videoId; ConsoleLog ["Description is already up to date."]],
     inr ()).
Proof.
  intros (video & rest' & _ & _ & ->)%updateYTDesc_update_inv Hlist.
  by apply (updateYTDesc_same _ _ _ _ _ Hlist).
Qed.

End Compositions.

Lemma tracks_overwrites_listed_videos_witness :
  tracks {| metadata_videos := [walker];
            metadata_tracks :=
              [ {| track_slug := "p5"; track_title := "p5.js";
                   track_videos := [walker; walker] |};
                {| track_slug := "ml"; track_title := "Machine Learning";
                   track_videos := [walker] |} ] |} [walker]
  = tracks sample_metadata [walker].
Proof. apply tracks_overwrites_listed_videos. reflexivity. Defined.

Lemma updateYTDesc_second_run_witness :
  updateYTDesc "abc" "new text"
    {| list_response := λ _, inr [ {| resource_snippet := body_snippet walker_update |} ];
       update_response := λ _, inr () |}
  = ([VideosList "abc"; ConsoleLog ["Description is already up to date."]],
     inr ()).
Proof.
  apply (updateYTDesc_second_run "abc" "new text" one_video_service _
           walker_update []); [|reflexivity].
  vm_compute. apply list_elem_of_further, list_elem_of_here.
Defined.
